(** * Expression trees and the interning factory of [task 8/task_8.cpp]

    The development has two layers.

    - The _tree layer_ reads an [ExprPtr] as the immutable sub-expression it
      points to: [Expression], [evaluate], [print].
    - The _store layer_ reads an [ExprPtr] as a [std::shared_ptr]: control
      blocks with use counts, [std::weak_ptr] entries in the pools of
      [ExpressionFactory], and [evaluate_at] / [print_at] which follow
      pointers.  The two layers are related by [view]. *)

From Stdlib Require Import ZArith String Ascii DecimalString Lia.
From Stdlib Require DecimalPos DecimalFacts.
From stdpp Require Import gmap strings list relations.

#[local] Set Warnings "-clear-no-such-hyp".
Open Scope Z_scope.

(* ================================================================= *)
(** ** The C++ type [int] *)

Definition INT_MIN : Z := -2147483648.
Definition INT_MAX : Z := 2147483647.

Definition representable (z : Z) : bool := (INT_MIN <=? z) && (z <=? INT_MAX).

(* ================================================================= *)
(** ** Outcomes of a call

    A call returns, throws, or has no defined behaviour (signed overflow,
    a null or dangling pointer, unbounded recursion). *)

Inductive exception :=
| logic_error (what : string)
| out_of_range (what : string).

Inductive outcome (A : Type) :=
| Returns (a : A)
| Throws (e : exception)
| Undefined.

Arguments Returns {A} a.
Arguments Throws {A} e.
Arguments Undefined {A}.

#[global] Instance outcome_ret : MRet outcome := λ A a, Returns a.
#[global] Instance outcome_bind : MBind outcome := λ A B k x,
  match x with
  | Returns a => k a
  | Throws e => Throws e
  | Undefined => Undefined
  end.

(** Signed arithmetic on [int]: a result outside the range is undefined. *)
Definition to_int (z : Z) : outcome Z :=
  if representable z then Returns z else Undefined.

Definition int_add (a b : Z) : outcome Z := to_int (a + b).
Definition int_sub (a b : Z) : outcome Z := to_int (a - b).
Definition int_mul (a b : Z) : outcome Z := to_int (a * b).
(** [a / b] of C++ is the quotient truncated toward zero, [Z.quot]. *)
Definition int_div (a b : Z) : outcome Z :=
  if b =? 0 then Undefined else to_int (a ÷ b).

(* ================================================================= *)
(** ** Expression nodes, tree layer *)

(** The four classes derived from [BinaryOp]. *)
Inductive BinaryClass := Add | Subtract | IntegerDivide | Multiply.

#[global] Instance BinaryClass_eq_dec : EqDecision BinaryClass.
Proof. solve_decision. Defined.

(** The [op] member each derived constructor passes to [BinaryOp]. *)
Definition op (cls : BinaryClass) : string :=
  match cls with
  | Add => "+"
  | Subtract => "-"
  | IntegerDivide => "//"
  | Multiply => "*"
  end.

Inductive Expression :=
| Constant (value : Z)
| Variable_ (name : string)   (* class Variable; [Variable] is reserved *)
| BinaryOp (cls : BinaryClass) (left right : Expression).

(** The two messages of the [std::logic_error]s thrown by [evaluate]. *)
Definition UndefinedVariable (name : string) : exception :=
  logic_error ("Variable " +:+ name +:+ " does not exist!").
Definition DivisionByZero : exception :=
  logic_error "Division by zero!".

(** [std::map<std::string,int>::contains] and [::at]. *)
Definition contains (vars : gmap string Z) (name : string) : bool :=
  bool_decide (is_Some (vars !! name)).

Definition at_ (vars : gmap string Z) (name : string) : outcome Z :=
  match vars !! name with
  | Some v => Returns v
  | None => Throws (out_of_range "map::at")
  end.

(** The two operands of a built-in [+], [-] or [*] are function calls that
    C++ leaves indeterminately sequenced: the compiler picks the order. *)
Inductive sequencing := LeftFirst | RightFirst.

Definition operands {A} (s : sequencing) (l r : outcome A) : outcome (A * A) :=
  match s with
  | LeftFirst => a ← l ; b ← r ; Returns (a, b)
  | RightFirst => b ← r ; a ← l ; Returns (a, b)
  end.

Definition arith (cls : BinaryClass) (a b : Z) : outcome Z :=
  match cls with
  | Add => int_add a b
  | Subtract => int_sub a b
  | Multiply => int_mul a b
  | IntegerDivide => int_div a b
  end.

Section Evaluate.
Variable operand_order : BinaryClass → sequencing.

Fixpoint evaluate (e : Expression) (vars : gmap string Z) : outcome Z :=
  match e with
  | Constant value => Returns value
  | Variable_ name =>
      if negb (contains vars name) then Throws (UndefinedVariable name)
      else at_ vars name
  | BinaryOp IntegerDivide l r =>
      divisor ← evaluate r vars ;
      if divisor =? 0 then Throws DivisionByZero
      else dividend ← evaluate l vars ; int_div dividend divisor
  | BinaryOp cls l r =>
      ab ← operands (operand_order cls) (evaluate l vars) (evaluate r vars) ;
      arith cls ab.1 ab.2
  end.

(** The nodes whose [evaluate] is entered, in the order of the calls. *)
Fixpoint reached (e : Expression) (vars : gmap string Z) : list Expression :=
  e ::
  match e with
  | Constant _ | Variable_ _ => []
  | BinaryOp IntegerDivide l r =>
      reached r vars ++
      match evaluate r vars with
      | Returns divisor => if divisor =? 0 then [] else reached l vars
      | _ => []
      end
  | BinaryOp cls l r =>
      match operand_order cls with
      | LeftFirst =>
          reached l vars ++
          match evaluate l vars with
          | Returns _ => reached r vars
          | _ => []
          end
      | RightFirst =>
          reached r vars ++
          match evaluate r vars with
          | Returns _ => reached l vars
          | _ => []
          end
      end
  end.

(** The operand a binary node evaluates first: the divisor for
    [IntegerDivide], the compiler's choice for the three others. *)
Definition first_operand (cls : BinaryClass) : sequencing :=
  match cls with
  | IntegerDivide => RightFirst
  | _ => operand_order cls
  end.

End Evaluate.

Definition pick {A} (s : sequencing) (l r : A) : A * A :=
  match s with
  | LeftFirst => (l, r)
  | RightFirst => (r, l)
  end.

(** [os << value] for an [int] on a stream with default formatting. *)
Definition string_of_int (value : Z) : string :=
  NilZero.string_of_int (Z.to_int value).

(** [print] appends to the stream; the stream is the text written so far. *)
Fixpoint print (e : Expression) (os : string) : string :=
  match e with
  | Constant value => os +:+ string_of_int value
  | Variable_ name => os +:+ name
  | BinaryOp cls l r =>
      let os := os +:+ "(" in
      let os := print l os in
      let os := (os +:+ " ") +:+ op cls in
      let os := os +:+ " " in
      let os := print r os in
      os +:+ ")"
  end.

Definition render (e : Expression) : string := print e "".

(** The names of the [Variable] nodes of an expression. *)
Fixpoint variables (e : Expression) : list string :=
  match e with
  | Constant _ => []
  | Variable_ name => [name]
  | BinaryOp _ l r => variables l ++ variables r
  end.

(** *** The decimal string of an integer

    What "the decimal string of [v]" means, stated on its own and not
    through [string_of_int]: a minus sign exactly when [v] is negative,
    then the digits of the magnitude, most significant first, without a
    leading zero unless the numeral is ["0"]. *)
Definition digit_value (c : ascii) : option Z := Z.of_nat <$> Ascii.is_nat c.

Fixpoint digits_value (acc : Z) (s : string) : option Z :=
  match s with
  | EmptyString => Some acc
  | String c s =>
      match digit_value c with
      | Some d => digits_value (10 * acc + d) s
      | None => None
      end
  end.

Definition unsigned_numeral (n : Z) (s : string) : Prop :=
  s ≠ ""%string
  ∧ (∀ t, s = String "0" t → t = ""%string)
  ∧ digits_value 0 s = Some n.

Definition decimal_numeral (v : Z) (s : string) : Prop :=
  if decide (v < 0) then ∃ t, s = String "-" t ∧ unsigned_numeral (- v) t
  else unsigned_numeral v s.

(** *** [what()]

    [std::logic_error::what()] hands the message out as a C string: a
    reader sees it up to the first NUL character. *)
Fixpoint c_str (s : string) : string :=
  match s with
  | EmptyString => EmptyString
  | String c s => if Ascii.eqb c "000" then EmptyString else String c (c_str s)
  end.

Definition what (e : exception) : string :=
  match e with
  | logic_error msg => c_str msg
  | out_of_range msg => c_str msg
  end.

Fixpoint nul_free (s : string) : bool :=
  match s with
  | EmptyString => true
  | String c s => negb (Ascii.eqb c "000") && nul_free s
  end.

Close Scope Z_scope.

(* ================================================================= *)
(** ** The store: [std::shared_ptr] and [std::weak_ptr]

    A pointer names the control block that [std::make_shared] allocates
    together with the object.  Blocks are never reused: a pointer is the
    identity of one object for the whole run. *)

Abbreviation ptr := nat (only parsing).

Inductive object :=
| ConstantObject (value : Z)
| VariableObject (name : string)
| BinaryOpObject (cls : BinaryClass) (left right : ptr).

Record control_block := ControlBlock {
  use_count : nat;      (* number of shared_ptr owners; 0: object destroyed *)
  managed : object
}.

Abbreviation Store := (list control_block) (only parsing).

Definition use_count_at (h : Store) (p : ptr) : nat :=
  match h !! p with
  | Some b => use_count b
  | None => 0
  end.

(** [std::make_shared<T>(...)]: a fresh block owned by the returned pointer. *)
Definition make_shared (obj : object) (h : Store) : ptr * Store :=
  (length h, h ++ [ControlBlock 1 obj]).

(** Copy construction of a [shared_ptr]. *)
Definition add_ref (p : ptr) (h : Store) : Store :=
  alter (λ b, ControlBlock (S (use_count b)) (managed b)) p h.

(** Destruction of a [shared_ptr]: the last owner destroys the object, and
    a [BinaryOp] then destroys its members in reverse order of declaration
    ([op], [right], [left]). *)
Fixpoint reset (fuel : nat) (p : ptr) (h : Store) : Store :=
  match fuel with
  | O => h
  | S fuel =>
      match h !! p with
      | None => h
      | Some b =>
          match use_count b with
          | O => h
          | S O =>
              let h := <[p := ControlBlock 0 (managed b)]> h in
              match managed b with
              | BinaryOpObject _ l r => reset fuel l (reset fuel r h)
              | _ => h
              end
          | S n => <[p := ControlBlock n (managed b)]> h
          end
      end
  end.

(** An object is built after its children, so the chain of destructions
    started at [p] is at most [S p] long. *)
Definition release (p : ptr) (h : Store) : Store := reset (S p) p h.

(** A [weak_ptr] is empty or observes a block. *)
Abbreviation weak_ptr := (option nat) (only parsing).

Definition expired (h : Store) (wp : weak_ptr) : bool :=
  match wp with
  | None => true
  | Some p => Nat.eqb (use_count_at h p) 0
  end.

(** [wp.lock()]: an empty result when expired, a new owner otherwise. *)
Definition lock (wp : weak_ptr) (h : Store) : option ptr * Store :=
  match wp with
  | None => (None, h)
  | Some p => if expired h wp then (None, h) else (Some p, add_ref p h)
  end.

(* ================================================================= *)
(** ** ExpressionFactory *)

Record ExpressionFactory := Factory {
  constPool : gmap Z (option nat);
  varPool : gmap string (option nat)
}.

(** The state the member functions act on: the heap, the singleton factory,
    the caller's context map and the caller's output stream. *)
Record Machine := Mach {
  store : list control_block;
  factory : ExpressionFactory;
  vars : gmap string Z;
  cout : string
}.

Definition set_store (h : Store) (m : Machine) : Machine :=
  Mach h (factory m) (vars m) (cout m).
Definition set_constPool (pool : gmap Z (option nat)) (m : Machine) : Machine :=
  Mach (store m) (Factory pool (varPool (factory m))) (vars m) (cout m).
Definition set_varPool (pool : gmap string (option nat)) (m : Machine) : Machine :=
  Mach (store m) (Factory (constPool (factory m)) pool) (vars m) (cout m).
Definition set_vars (vs : gmap string Z) (m : Machine) : Machine :=
  Mach (store m) (factory m) vs (cout m).
Definition set_cout (os : string) (m : Machine) : Machine :=
  Mach (store m) (factory m) (vars m) os.

(** [prune]: erase every entry whose [weak_ptr] has expired. *)
Definition prune `{Countable K} (h : Store) (pool : gmap K (option nat))
  : gmap K (option nat) :=
  filter (λ kv, expired h kv.2 = false) pool.

(** [pool[key]]: the entry for [key], default-constructed when absent. *)
Definition subscript `{Countable K} (pool : gmap K (option nat)) (key : K)
  : option nat * gmap K (option nat) :=
  match pool !! key with
  | Some wp => (wp, pool)
  | None => (None, <[key := None]> pool)
  end.

Definition getConstant (v : Z) (m : Machine) : ptr * Machine :=
  let pool := prune (store m) (constPool (factory m)) in
  let '(wp, pool) := subscript pool v in
  match lock wp (store m) with
  | (Some sp, h) => (sp, set_constPool pool (set_store h m))
  | (None, h) =>
      let '(sp, h) := make_shared (ConstantObject v) h in
      (sp, set_constPool (<[v := Some sp]> pool) (set_store h m))
  end.

Definition getVariable (name : string) (m : Machine) : ptr * Machine :=
  let pool := prune (store m) (varPool (factory m)) in
  let '(wp, pool) := subscript pool name in
  match lock wp (store m) with
  | (Some sp, h) => (sp, set_varPool pool (set_store h m))
  | (None, h) =>
      let '(sp, h) := make_shared (VariableObject name) h in
      (sp, set_varPool (<[name := Some sp]> pool) (set_store h m))
  end.

(** [std::make_shared<Add>(l, r)] and its siblings: the new node holds one
    more owner of each child; the caller keeps its own handles. *)
Definition make_binary (cls : BinaryClass) (l r : ptr) (m : Machine)
  : ptr * Machine :=
  let '(sp, h) := make_shared (BinaryOpObject cls l r)
                    (add_ref r (add_ref l (store m))) in
  (sp, set_store h m).

(** [ExpressionFactory::instance()] at first use, an empty heap. *)
Definition initial (vs : gmap string Z) : Machine :=
  Mach [] (Factory ∅ ∅) vs "".

(* ================================================================= *)
(** ** [evaluate] and [print] through pointers

    The member functions as state transformers over [Machine], written with
    the reads and writes the C++ code performs. *)

Definition M (A : Type) : Type := Machine → outcome A * Machine.

#[global] Instance M_ret : MRet M := λ A a m, (Returns a, m).
#[global] Instance M_bind : MBind M := λ A B k c m,
  match c m with
  | (Returns a, m) => k a m
  | (Throws e, m) => (Throws e, m)
  | (Undefined, m) => (Undefined, m)
  end.

Definition throw {A} (e : exception) : M A := λ m, (Throws e, m).
Definition undefined {A} : M A := λ m, (Undefined, m).
Definition lift {A} (o : outcome A) : M A := λ m, (o, m).

(** [*p] for a [shared_ptr] member or handle. *)
Definition deref (p : ptr) : M object := λ m,
  match store m !! p with
  | Some b => if Nat.eqb (use_count b) 0 then (Undefined, m)
              else (Returns (managed b), m)
  | None => (Undefined, m)
  end.

Definition vars_contains (name : string) : M bool := λ m,
  (Returns (contains (vars m) name), m).
Definition vars_at (name : string) : M Z := λ m, (at_ (vars m) name, m).

(** [os << s]. *)
Definition put (s : string) : M unit := λ m,
  (Returns tt, set_cout (cout m +:+ s) m).

Section EvaluateAt.
Variable operand_order : BinaryClass → sequencing.

Fixpoint evaluate_at (fuel : nat) (this : ptr) : M Z :=
  match fuel with
  | O => undefined
  | S fuel =>
      obj ← deref this ;
      match obj with
      | ConstantObject value => mret value
      | VariableObject name =>
          found ← vars_contains name ;
          if negb found then throw (UndefinedVariable name)
          else vars_at name
      | BinaryOpObject IntegerDivide l r =>
          divisor ← evaluate_at fuel r ;
          if (divisor =? 0)%Z then throw DivisionByZero
          else dividend ← evaluate_at fuel l ; lift (int_div dividend divisor)
      | BinaryOpObject cls l r =>
          match operand_order cls with
          | LeftFirst =>
              a ← evaluate_at fuel l ; b ← evaluate_at fuel r ;
              lift (arith cls a b)
          | RightFirst =>
              b ← evaluate_at fuel r ; a ← evaluate_at fuel l ;
              lift (arith cls a b)
          end
      end
  end.

End EvaluateAt.

Fixpoint print_at (fuel : nat) (this : ptr) : M unit :=
  match fuel with
  | O => undefined
  | S fuel =>
      obj ← deref this ;
      match obj with
      | ConstantObject value => put (string_of_int value)
      | VariableObject name => put name
      | BinaryOpObject cls l r =>
          put "(" ;; print_at fuel l ;;
          put " " ;; put (op cls) ;; put " " ;;
          print_at fuel r ;; put ")"
      end
  end.

(** What a call may do to the machine: append to the stream and nothing
    else; never throw. *)
Definition only_appends {A} (c : M A) : Prop :=
  ∀ m, ∃ s, (c m).2 = set_cout (cout m +:+ s) m.
Definition never_throws {A} (c : M A) : Prop :=
  ∀ m x, (c m).1 ≠ Throws x.

(** The text [print] writes for the node at [p], on a stream of its own. *)
Definition render_at (p : ptr) (m : Machine) : outcome string :=
  match print_at (S p) p (set_cout "" m) with
  | (Returns _, m') => Returns (cout m')
  | (Throws e, _) => Throws e
  | (Undefined, _) => Undefined
  end.

(** The expression tree a pointer stands for. *)
Fixpoint view (fuel : nat) (h : Store) (p : ptr) : option Expression :=
  match fuel with
  | O => None
  | S fuel =>
      match h !! p with
      | None => None
      | Some b =>
          if Nat.eqb (use_count b) 0 then None
          else match managed b with
               | ConstantObject value => Some (Constant value)
               | VariableObject name => Some (Variable_ name)
               | BinaryOpObject cls l r =>
                   match view fuel h l, view fuel h r with
                   | Some l', Some r' => Some (BinaryOp cls l' r')
                   | _, _ => None
                   end
               end
      end
  end.

(* ================================================================= *)
(** ** A client of the factory

    What a program may do with the classes, one [action] at a time.  The
    ghost lists record which handles the client holds ([owned], one entry
    per [shared_ptr] object) and which nodes came out of the factory
    ([interned]). *)

Record Client := Cl {
  machine : Machine;
  owned : list nat;
  interned : list nat
}.

Inductive action :=
| GetConstant (v : Z)                          (* factory.getConstant(v) *)
| GetVariable (name : string)                  (* factory.getVariable(name) *)
| NewConstant (v : Z)                          (* make_shared<Constant>(v) *)
| NewVariable (name : string)                  (* make_shared<Variable>(name) *)
| NewBinary (cls : BinaryClass) (l r : ptr)    (* make_shared<Add>(l, r), ... *)
| Copy (p : ptr)                               (* ExprPtr q = p *)
| Release (p : ptr)                            (* a handle goes out of scope *)
| SetVars (vs : gmap string Z)                 (* the client edits its context *)
| Evaluate (p : ptr)                           (* p->evaluate(context) *)
| Print (p : ptr).                             (* p->print(std::cout) *)

Fixpoint remove_one (p : ptr) (l : list nat) : list nat :=
  match l with
  | [] => []
  | q :: l => if decide (p = q) then l else q :: remove_one p l
  end.

Section Client.
Variable operand_order : BinaryClass → sequencing.

(** [None]: the client does not hold the handles the action needs. *)
Definition perform (a : action) (c : Client) : option Client :=
  match a with
  | GetConstant v =>
      let '(p, m) := getConstant v (machine c) in
      Some (Cl m (p :: owned c) (p :: interned c))
  | GetVariable name =>
      let '(p, m) := getVariable name (machine c) in
      Some (Cl m (p :: owned c) (p :: interned c))
  | NewConstant v =>
      let '(p, h) := make_shared (ConstantObject v) (store (machine c)) in
      Some (Cl (set_store h (machine c)) (p :: owned c) (interned c))
  | NewVariable name =>
      let '(p, h) := make_shared (VariableObject name) (store (machine c)) in
      Some (Cl (set_store h (machine c)) (p :: owned c) (interned c))
  | NewBinary cls l r =>
      if decide (l ∈ owned c ∧ r ∈ owned c) then
        let '(p, m) := make_binary cls l r (machine c) in
        Some (Cl m (p :: owned c) (interned c))
      else None
  | Copy p =>
      if decide (p ∈ owned c) then
        Some (Cl (set_store (add_ref p (store (machine c))) (machine c))
                 (p :: owned c) (interned c))
      else None
  | Release p =>
      if decide (p ∈ owned c) then
        Some (Cl (set_store (release p (store (machine c))) (machine c))
                 (remove_one p (owned c)) (interned c))
      else None
  | SetVars vs => Some (Cl (set_vars vs (machine c)) (owned c) (interned c))
  | Evaluate p =>
      if decide (p ∈ owned c) then
        Some (Cl (evaluate_at operand_order (S p) p (machine c)).2
                 (owned c) (interned c))
      else None
  | Print p =>
      if decide (p ∈ owned c) then
        Some (Cl (print_at (S p) p (machine c)).2 (owned c) (interned c))
      else None
  end.

Fixpoint run (acts : list action) (c : Client) : option Client :=
  match acts with
  | [] => Some c
  | a :: acts =>
      match perform a c with
      | Some c => run acts c
      | None => None
      end
  end.

Definition start : Client := Cl (initial ∅) [] [].

Definition reachable (c : Client) : Prop := ∃ acts, run acts start = Some c.

End Client.

(** A compiler that evaluates the left operand of [+], [-] and [*] first,
    and one that evaluates the right operand first. *)
Definition left_to_right : BinaryClass → sequencing := λ _, LeftFirst.
Definition right_to_left : BinaryClass → sequencing := λ _, RightFirst.

(** The client after a run of actions from the start. *)
Definition after (acts : list action) : Client :=
  default start (run left_to_right acts start).

(** [(2 + x) * 5], the expression [main] builds. *)
Definition sample : Expression :=
  BinaryOp Multiply (BinaryOp Add (Constant 2) (Variable_ "x")) (Constant 5).

(** *** Who owns a node

    The owners of [p] are the client's handles to it and the [left] and
    [right] members of the live [BinaryOp] objects.  Pool entries are not
    counted. *)

Definition refs_from (b : control_block) (p : ptr) : nat :=
  if Nat.eqb (use_count b) 0 then 0
  else match managed b with
       | BinaryOpObject _ l r =>
           (if decide (l = p) then 1 else 0) + (if decide (r = p) then 1 else 0)
       | _ => 0
       end.

Definition refs_in (h : Store) (p : ptr) : nat :=
  sum_list_with (λ b, refs_from b p) h.

Definition owners (c : Client) (p : ptr) : nat :=
  count_occ Nat.eq_dec (owned c) p + refs_in (store (machine c)) p.

Definition alive (h : Store) (p : ptr) : Prop := 0 < use_count_at h p.

Definition object_at (h : Store) (p : ptr) : option object :=
  managed <$> h !! p.

Definition is_leaf (o : object) : Prop :=
  match o with
  | BinaryOpObject _ _ _ => False
  | _ => True
  end.

(** *** The common shape of [getConstant] and [getVariable]

    The two member functions are the same code over two pools; [intern] is
    that code with the pool and the constructor as parameters. *)
Definition intern `{Countable K} (mk : K → object) (key : K)
    (h : Store) (pool : gmap K (option nat))
  : ptr * Store * gmap K (option nat) :=
  let pool := prune h pool in
  let '(wp, pool) := subscript pool key in
  match lock wp h with
  | (Some sp, h) => (sp, h, pool)
  | (None, h) =>
      let '(sp, h) := make_shared (mk key) h in
      (sp, h, <[key := Some sp]> pool)
  end.

(** *** What holds in every state a client can reach *)

Definition children_before (h : Store) : Prop :=
  ∀ p blk cls l r,
    h !! p = Some blk → managed blk = BinaryOpObject cls l r → l < p ∧ r < p.

Definition pool_typed `{Countable K} (mk : K → object)
    (h : Store) (pool : gmap K (option nat)) : Prop :=
  ∀ key p, pool !! key = Some (Some p) → object_at h p = Some (mk key).

Definition pool_complete `{Countable K} (mk : K → object)
    (h : Store) (pool : gmap K (option nat)) (made : list nat) : Prop :=
  ∀ key p, p ∈ made → alive h p → object_at h p = Some (mk key) →
           pool !! key = Some (Some p).

Record consistent (c : Client) : Prop := Consistent {
  cons_children : children_before (store (machine c));
  cons_counts : ∀ p, use_count_at (store (machine c)) p = owners c p;
  cons_const_typed :
    pool_typed ConstantObject (store (machine c)) (constPool (factory (machine c)));
  cons_var_typed :
    pool_typed VariableObject (store (machine c)) (varPool (factory (machine c)));
  cons_const_complete :
    pool_complete ConstantObject (store (machine c))
      (constPool (factory (machine c))) (interned c);
  cons_var_complete :
    pool_complete VariableObject (store (machine c))
      (varPool (factory (machine c))) (interned c);
  cons_interned_leaf :
    ∀ p, p ∈ interned c →
         ∃ o, object_at (store (machine c)) p = Some o ∧ is_leaf o
}.

(** The body of [main]: build [(2 + x) * 5], print and evaluate it under
    [{x: 3}], leave the block, then build [3 + xx]. *)
Definition main_block : list action :=
  [ GetConstant 2; GetVariable "x"; NewBinary Add 0 1; Release 0; Release 1;
    GetConstant 5; NewBinary Multiply 2 3; Release 3;
    SetVars {[ "x"%string := 3%Z ]}; Print 4; Evaluate 4 ].


(* ################################################################# *)
(** * Properties of the tree layer *)

(** ** Strings *)

Lemma app_cons a (s t : string) : String a s +:+ t = String a (s +:+ t).
Proof. reflexivity. Qed.

Lemma app_empty_r (s : string) : s +:+ "" = s.
Proof. induction s as [|a s IH]; [done|]. by rewrite app_cons, IH. Qed.

Lemma app_assoc_s (s t u : string) : (s +:+ t) +:+ u = s +:+ (t +:+ u).
Proof. induction s as [|a s IH]; [done|]. by rewrite !app_cons, IH. Qed.

Lemma length_app_s (s t : string) :
  String.length (s +:+ t) = String.length s + String.length t.
Proof. induction s as [|a s IH]; [done|]. rewrite app_cons. simpl. by rewrite IH. Qed.

Lemma app_inj_r (s1 s2 t : string) : s1 +:+ t = s2 +:+ t → s1 = s2.
Proof.
  revert s2. induction s1 as [|a s1 IH]; intros [|b s2] Heq; [done| | |].
  - apply (f_equal String.length) in Heq.
    rewrite app_cons in Heq. simpl in Heq. rewrite !length_app_s in Heq.
    simpl in Heq. lia.
  - apply (f_equal String.length) in Heq.
    rewrite app_cons in Heq. simpl in Heq. rewrite !length_app_s in Heq.
    simpl in Heq. lia.
  - rewrite !app_cons in Heq. injection Heq as -> Heq. f_equal. by apply IH.
Qed.

Lemma UndefinedVariable_inj a b : UndefinedVariable a = UndefinedVariable b → a = b.
Proof.
  unfold UndefinedVariable. intros [= Heq].
  apply String.app_inj in Heq. by apply app_inj_r in Heq.
Qed.

Lemma UndefinedVariable_DivisionByZero a : UndefinedVariable a ≠ DivisionByZero.
Proof. discriminate. Qed.

(** ** Decimal numerals *)

Lemma digits_value_of_uint_acc d acc :
  digits_value (Z.pos acc) (NilEmpty.string_of_uint d)
  = Some (Z.pos (Pos.of_uint_acc d acc)).
Proof.
  revert acc. induction d as [|d IH|d IH|d IH|d IH|d IH|d IH|d IH|d IH|d IH|d IH];
    intros acc; [done|..];
    cbn [NilEmpty.string_of_uint digits_value digit_value Pos.of_uint_acc];
    rewrite <- IH; f_equal; lia.
Qed.

Lemma digits_value_of_uint d :
  digits_value 0 (NilEmpty.string_of_uint d) = Some (Z.of_N (Pos.of_uint d)).
Proof.
  induction d as [|d IH|d IH|d IH|d IH|d IH|d IH|d IH|d IH|d IH|d IH];
    [done | exact IH | ..];
    cbn [NilEmpty.string_of_uint digits_value digit_value Pos.of_uint];
    apply (digits_value_of_uint_acc d).
Qed.

Lemma string_of_uint_empty d : NilEmpty.string_of_uint d = ""%string → d = Decimal.Nil.
Proof. by destruct d. Qed.

Lemma string_of_uint_zero d t :
  NilEmpty.string_of_uint d = String "0" t →
  ∃ d', d = Decimal.D0 d' ∧ t = NilEmpty.string_of_uint d'.
Proof. destruct d; try done. intros [= <-]. by eexists. Qed.

Lemma to_uint_unorm p : Decimal.unorm (Pos.to_uint p) = Pos.to_uint p.
Proof.
  rewrite <- DecimalPos.Unsigned.to_of, DecimalPos.Unsigned.of_to. done.
Qed.

Lemma unorm_fixed_D0 d : Decimal.unorm (Decimal.D0 d) = Decimal.D0 d → d = Decimal.Nil.
Proof.
  rewrite DecimalFacts.unorm_D0. unfold Decimal.unorm.
  destruct (Decimal.nzhead d) eqn:E; try (intros [= <-]; try done);
    by apply DecimalFacts.nzhead_nonzero in E.
Qed.

Lemma unsigned_numeral_to_uint p :
  unsigned_numeral (Z.pos p) (NilZero.string_of_uint (Pos.to_uint p)).
Proof.
  assert (Hs : NilZero.string_of_uint (Pos.to_uint p)
               = NilEmpty.string_of_uint (Pos.to_uint p)).
  { pose proof (DecimalPos.Unsigned.to_uint_nonnil p).
    by destruct (Pos.to_uint p). }
  rewrite Hs. split_and!.
  - intros He%string_of_uint_empty.
    by apply DecimalPos.Unsigned.to_uint_nonnil in He.
  - intros t (d' & Hd & _)%string_of_uint_zero. exfalso.
    pose proof (to_uint_unorm p) as Hu. rewrite Hd in Hu.
    apply unorm_fixed_D0 in Hu as ->.
    by apply DecimalPos.Unsigned.to_uint_nonzero in Hd.
  - by rewrite digits_value_of_uint, DecimalPos.Unsigned.of_to.
Qed.

(** [string_of_int] writes the decimal string of its argument. *)
Lemma string_of_int_numeral v : decimal_numeral v (string_of_int v).
Proof.
  unfold decimal_numeral, string_of_int. destruct v as [|p|p];
    case_decide as Hneg; try lia; cbn [Z.to_int NilZero.string_of_int].
  - by split_and!; [|intros t [= <-]|].
  - apply unsigned_numeral_to_uint.
  - eexists. split; [done|]. apply unsigned_numeral_to_uint.
Qed.

Lemma digits_value_parses s acc n :
  digits_value acc s = Some n → ∃ d, NilEmpty.uint_of_string s = Some d.
Proof.
  revert acc. induction s as [|c s IH]; intros acc; simpl; [by eexists|].
  destruct (digit_value c) as [k|] eqn:Hk; [|done].
  intros (d & Hd)%IH. rewrite Hd.
  destruct c as [[] [] [] [] [] [] [] []]; try discriminate; by eexists.
Qed.

Lemma digits_value_nonneg s acc n : (0 <= acc)%Z → digits_value acc s = Some n → (0 <= n)%Z.
Proof.
  revert acc. induction s as [|c s IH]; intros acc Hacc; simpl; [by intros [= <-]|].
  destruct (digit_value c) as [k|] eqn:Hk; [|done].
  apply IH.
  destruct c as [[] [] [] [] [] [] [] []]; try discriminate;
    injection Hk as <-; lia.
Qed.

(** Only one text is the decimal string of a given integer. *)
Lemma unsigned_numeral_unique n s :
  unsigned_numeral n s → (0 <= n)%Z ∧ s = string_of_int n.
Proof.
  intros (Hne & Hlead & Hv).
  pose proof (digits_value_nonneg s 0 n (Z.le_refl 0) Hv) as Hn.
  split; [done|].
  destruct (digits_value_parses s 0 n Hv) as [d Hd].
  apply NilEmpty.sus in Hd. subst s.
  rewrite digits_value_of_uint in Hv. injection Hv as <-.
  assert (Hd : d ≠ Decimal.Nil) by (by intros ->).
  assert (Hu : Decimal.unorm d = d).
  { destruct d; try done.
    by rewrite (string_of_uint_empty d (Hlead (NilEmpty.string_of_uint d) eq_refl)). }
  rewrite <- DecimalPos.Unsigned.to_of in Hu.
  unfold string_of_int.
  destruct (Pos.of_uint d) as [|p] eqn:Hp; simpl in *.
  - by rewrite <- Hu.
  - rewrite <- Hu at 1.
    pose proof (DecimalPos.Unsigned.to_uint_nonnil p).
    by destruct (Pos.to_uint p).
Qed.

Lemma decimal_numeral_unique v s : decimal_numeral v s ↔ s = string_of_int v.
Proof.
  split; [|intros ->; apply string_of_int_numeral].
  unfold decimal_numeral. case_decide as Hneg.
  - intros (t & -> & [_ ->]%unsigned_numeral_unique).
    destruct v as [|p|p]; try lia. done.
  - by intros [_ ->]%unsigned_numeral_unique.
Qed.

(** ** [what()] *)

Lemma c_str_nul_free s : nul_free s = true → c_str s = s.
Proof.
  induction s as [|c s IH]; simpl; [done|].
  destruct (Ascii.eqb c "000"); simpl; [done|]. intros H. by rewrite IH.
Qed.

Lemma nul_free_app s t : nul_free (s +:+ t) = nul_free s && nul_free t.
Proof.
  induction s as [|c s IH]; [done|]. rewrite app_cons. simpl.
  rewrite IH. by rewrite andb_assoc.
Qed.

(** ** Evaluation *)

Section EvaluateFacts.
Variable ord : BinaryClass → sequencing.
Implicit Types (e l r : Expression) (vars : gmap string Z) (x : exception).

Lemma evaluate_Variable vars name :
  evaluate ord (Variable_ name) vars =
    match vars !! name with
    | Some v => Returns v
    | None => Throws (UndefinedVariable name)
    end.
Proof.
  simpl. unfold contains, at_. destruct (vars !! name) eqn:E.
  - rewrite bool_decide_eq_true_2; [done | by eexists].
  - rewrite bool_decide_eq_false_2; [done | by intros [? ?]].
Qed.

Lemma evaluate_first_throws cls l r vars x :
  evaluate ord (pick (first_operand ord cls) l r).1 vars = Throws x →
  evaluate ord (BinaryOp cls l r) vars = Throws x.
Proof.
  unfold first_operand.
  destruct cls; simpl; try (destruct (ord _); simpl); intros ->; try done;
    by destruct (evaluate ord _ vars).
Qed.

Lemma evaluate_first_undefined cls l r vars :
  evaluate ord (pick (first_operand ord cls) l r).1 vars = Undefined →
  evaluate ord (BinaryOp cls l r) vars = Undefined.
Proof.
  unfold first_operand.
  destruct cls; simpl; try (destruct (ord _); simpl); intros ->; try done;
    by destruct (evaluate ord _ vars).
Qed.

Lemma evaluate_second_throws cls l r vars a x :
  evaluate ord (pick (first_operand ord cls) l r).1 vars = Returns a →
  (cls = IntegerDivide → a ≠ 0%Z) →
  evaluate ord (pick (first_operand ord cls) l r).2 vars = Throws x →
  evaluate ord (BinaryOp cls l r) vars = Throws x.
Proof.
  unfold first_operand.
  destruct cls; simpl; try (destruct (ord _); simpl); intros -> Hnz ->; try done.
  simpl. destruct (Z.eqb_spec a 0); [by destruct Hnz | done].
Qed.

Lemma evaluate_both_return cls l r vars a b :
  evaluate ord l vars = Returns a →
  evaluate ord r vars = Returns b →
  evaluate ord (BinaryOp cls l r) vars =
    if decide (cls = IntegerDivide ∧ b = 0%Z) then Throws DivisionByZero
    else arith cls a b.
Proof.
  intros Hl Hr.
  destruct cls; simpl; rewrite Hl, Hr; try (destruct (ord _)); simpl; try done.
  destruct (Z.eqb_spec b 0); case_decide; naive_solver.
Qed.

Lemma reached_binary cls l r vars :
  reached ord (BinaryOp cls l r) vars =
    let '(f, s) := pick (first_operand ord cls) l r in
    BinaryOp cls l r :: reached ord f vars ++
      match evaluate ord f vars with
      | Returns a =>
          if decide (cls = IntegerDivide ∧ a = 0%Z) then [] else reached ord s vars
      | _ => []
      end.
Proof.
  unfold first_operand.
  destruct cls; simpl; try (destruct (ord _); simpl); try done;
    try (by destruct (evaluate ord _ vars)).
  destruct (evaluate ord r vars) as [a| |]; try done.
  destruct (Z.eqb_spec a 0); case_decide; naive_solver.
Qed.

Lemma reached_self e vars : e ∈ reached ord e vars.
Proof. destruct e; simpl; apply elem_of_cons; by left. Qed.

(** An exception thrown by a reached node aborts the whole call. *)
Lemma reached_throws e vars sub x :
  sub ∈ reached ord e vars →
  evaluate ord sub vars = Throws x →
  evaluate ord e vars = Throws x.
Proof.
  induction e as [v|n|cls l IHl r IHr]; intros Hin Hx.
  - apply list_elem_of_singleton in Hin. by subst.
  - apply list_elem_of_singleton in Hin. by subst.
  - rewrite reached_binary in Hin.
    assert (IHf : sub ∈ reached ord (pick (first_operand ord cls) l r).1 vars →
                  evaluate ord (pick (first_operand ord cls) l r).1 vars = Throws x)
      by (destruct (first_operand ord cls); simpl; auto).
    assert (IHs : sub ∈ reached ord (pick (first_operand ord cls) l r).2 vars →
                  evaluate ord (pick (first_operand ord cls) l r).2 vars = Throws x)
      by (destruct (first_operand ord cls); simpl; auto).
    pose proof (evaluate_first_throws cls l r vars x) as Hfirst.
    pose proof (evaluate_second_throws cls l r vars) as Hsecond.
    destruct (pick (first_operand ord cls) l r) as [f s]. simpl in *.
    apply elem_of_cons in Hin as [-> | Hin]; [done|].
    apply elem_of_app in Hin as [Hin | Hin]; [by auto|].
    destruct (evaluate ord f vars) as [a| |] eqn:Hf;
      try by apply elem_of_nil in Hin.
    case_decide as Hz; [by apply elem_of_nil in Hin|].
    apply (Hsecond a x); auto; intros ->; naive_solver.
Qed.

(** Where an exception comes from: a reached [Variable] that the context
    lacks, or a reached [IntegerDivide] whose divisor is zero. *)
Local Abbreviation origin e vars x :=
  ((∃ name, Variable_ name ∈ reached ord e vars ∧ vars !! name = None
            ∧ x = UndefinedVariable name)
   ∨ (∃ l r, BinaryOp IntegerDivide l r ∈ reached ord e vars
             ∧ evaluate ord r vars = Returns 0%Z ∧ x = DivisionByZero)).

Lemma origin_mono e e' vars x :
  (∀ sub, sub ∈ reached ord e vars → sub ∈ reached ord e' vars) →
  origin e vars x → origin e' vars x.
Proof.
  intros Hsub [(n & ? & ? & ?)|(l & r & ? & ? & ?)];
    [left; exists n | right; exists l, r]; auto.
Qed.

Lemma arith_not_throws cls a b x :
  (cls = IntegerDivide → b ≠ 0%Z) → arith cls a b ≠ Throws x.
Proof.
  intros Hnz. destruct cls; simpl;
    unfold int_add, int_sub, int_mul, int_div, to_int;
    repeat case_match; done.
Qed.

Lemma evaluate_operands cls l r vars a b :
  evaluate ord (pick (first_operand ord cls) l r).1 vars = Returns a →
  evaluate ord (pick (first_operand ord cls) l r).2 vars = Returns b →
  ∃ a' b', evaluate ord l vars = Returns a' ∧ evaluate ord r vars = Returns b'
           ∧ (cls = IntegerDivide → b' = a).
Proof.
  unfold first_operand. destruct cls; simpl; try (destruct (ord _); simpl);
    intros -> ->; eexists _, _; split_and!; eauto; done.
Qed.

Lemma evaluate_second_undefined cls l r vars a :
  evaluate ord (pick (first_operand ord cls) l r).1 vars = Returns a →
  (cls = IntegerDivide → a ≠ 0%Z) →
  evaluate ord (pick (first_operand ord cls) l r).2 vars = Undefined →
  evaluate ord (BinaryOp cls l r) vars = Undefined.
Proof.
  unfold first_operand.
  destruct cls; simpl; try (destruct (ord _); simpl); intros -> Hnz ->; try done.
  simpl. destruct (Z.eqb_spec a 0); [by destruct Hnz | done].
Qed.

Lemma first_operand_divisor cls l r :
  cls = IntegerDivide → (pick (first_operand ord cls) l r).1 = r.
Proof. by intros ->. Qed.

Lemma throws_origin e vars x :
  evaluate ord e vars = Throws x → origin e vars x.
Proof.
  induction e as [v|n|cls l IHl r IHr]; intros Hx.
  - discriminate.
  - rewrite evaluate_Variable in Hx. destruct (vars !! n) eqn:E; [done|].
    injection Hx as <-. left. exists n. split; [apply reached_self | done].
  - assert (IHf : evaluate ord (pick (first_operand ord cls) l r).1 vars = Throws x →
                  origin (pick (first_operand ord cls) l r).1 vars x)
      by (destruct (first_operand ord cls); simpl; auto).
    assert (IHs : evaluate ord (pick (first_operand ord cls) l r).2 vars = Throws x →
                  origin (pick (first_operand ord cls) l r).2 vars x)
      by (destruct (first_operand ord cls); simpl; auto).
    pose proof (evaluate_first_throws cls l r vars) as Hfirst.
    pose proof (evaluate_first_undefined cls l r vars) as Hfirstu.
    pose proof (evaluate_second_throws cls l r vars) as Hsecond.
    pose proof (evaluate_second_undefined cls l r vars) as Hsecondu.
    pose proof (evaluate_operands cls l r vars) as Hboth.
    pose proof (first_operand_divisor cls l r) as Hdiv.
    pose proof (reached_binary cls l r vars) as Hreach.
    destruct (pick (first_operand ord cls) l r) as [f s]. cbn [fst snd] in *.
    destruct (evaluate ord f vars) as [a| |] eqn:Hf.
    + destruct (decide (cls = IntegerDivide ∧ a = 0%Z)) as [[-> ->]|Hnz].
      * rewrite Hdiv in Hf by done. simpl in Hx. rewrite Hf in Hx. simpl in Hx.
        injection Hx as <-. right. exists l, r.
        split; [apply reached_self | done].
      * destruct (evaluate ord s vars) as [b| |] eqn:Hs.
        -- destruct (Hboth a b) as (a' & b' & Hl & Hr & Hb); [done..|].
           rewrite (evaluate_both_return cls l r vars a' b' Hl Hr) in Hx.
           case_decide as Hz; [naive_solver|].
           exfalso. revert Hx. apply arith_not_throws. naive_solver.
        -- rewrite (Hsecond a e) in Hx by naive_solver.
           injection Hx as ->.
           apply (origin_mono s); [|by auto].
           intros sub Hin. rewrite Hreach.
           apply elem_of_cons. right. apply elem_of_app. by right.
        -- rewrite (Hsecondu a) in Hx by naive_solver. discriminate.
    + rewrite (Hfirst e) in Hx by done. injection Hx as ->.
      apply (origin_mono f); [|by auto].
      intros sub Hin. rewrite Hreach.
      apply elem_of_cons. right. apply elem_of_app. by left.
    + rewrite Hfirstu in Hx by done. discriminate.
Qed.

End EvaluateFacts.

(** ** The claims about [evaluate] on trees *)

(** C1, counterexample.  With no entry for ["undef"], the evaluation of
    [IntegerDivide(Variable("undef"), Constant(0))] throws the division
    error, not the undefined-variable error: the divisor is evaluated and
    tested before the left subtree is entered. *)
Lemma divide_undef_by_zero_reports_division :
  evaluate left_to_right
    (BinaryOp IntegerDivide (Variable_ "undef") (Constant 0)) ∅
    = Throws DivisionByZero
  ∧ evaluate left_to_right
      (BinaryOp IntegerDivide (Variable_ "undef") (Constant 0)) ∅
      ≠ Throws (UndefinedVariable "undef")
  ∧ (∅ : gmap string Z) !! "undef"%string = None
  ∧ reached left_to_right
      (BinaryOp IntegerDivide (Variable_ "undef") (Constant 0)) ∅
    = [BinaryOp IntegerDivide (Variable_ "undef") (Constant 0); Constant 0].
Proof. split_and!; [reflexivity | discriminate | reflexivity | reflexivity]. Qed.

(** C1, as the code has it.  A binary node evaluates one operand, then the
    other, then applies the operator.  The operand evaluated first is the
    right one for [IntegerDivide], and the compiler's choice for [Add],
    [Subtract] and [Multiply].  A failure of the first operand, or a zero
    divisor, is reported without entering the second operand; in
    particular [IntegerDivide(Variable("undef"), Constant(0))] fails with
    the division error. *)
Theorem evaluate_operand_order ord cls l r vars :
  let first := (pick (first_operand ord cls) l r).1 in
  let second := (pick (first_operand ord cls) l r).2 in
  first_operand ord IntegerDivide = RightFirst
  ∧ (cls ≠ IntegerDivide → first_operand ord cls = ord cls)
  ∧ (∀ x, evaluate ord first vars = Throws x →
          evaluate ord (BinaryOp cls l r) vars = Throws x
          ∧ reached ord (BinaryOp cls l r) vars
            = BinaryOp cls l r :: reached ord first vars)
  ∧ (cls = IntegerDivide → evaluate ord r vars = Returns 0%Z →
          evaluate ord (BinaryOp cls l r) vars = Throws DivisionByZero
          ∧ reached ord (BinaryOp cls l r) vars
            = BinaryOp cls l r :: reached ord r vars)
  ∧ (∀ a, evaluate ord first vars = Returns a →
          (cls = IntegerDivide → a ≠ 0%Z) →
          reached ord (BinaryOp cls l r) vars
            = BinaryOp cls l r :: reached ord first vars ++ reached ord second vars
          ∧ ∀ x, evaluate ord second vars = Throws x →
                 evaluate ord (BinaryOp cls l r) vars = Throws x)
  ∧ (∀ a b, evaluate ord l vars = Returns a → evaluate ord r vars = Returns b →
          (cls = IntegerDivide → b ≠ 0%Z) →
          evaluate ord (BinaryOp cls l r) vars = arith cls a b)
  ∧ (vars !! "undef"%string = None →
          evaluate ord (BinaryOp IntegerDivide (Variable_ "undef") (Constant 0)) vars
            = Throws DivisionByZero).
Proof.
  intros first second. subst first second.
  pose proof (reached_binary ord cls l r vars) as Hreach.
  split_and!.
  - done.
  - by destruct cls.
  - intros x Hx. split; [by apply evaluate_first_throws|].
    destruct (pick _ l r) as [f s]. cbn [fst snd] in *.
    by rewrite Hreach, Hx, app_nil_r.
  - intros -> Hr. split; [by simpl; rewrite Hr|].
    simpl. by rewrite Hr, app_nil_r.
  - intros a Ha Hnz. split.
    + destruct (pick _ l r) as [f s]. cbn [fst snd] in *.
      rewrite Hreach, Ha. by rewrite decide_False by naive_solver.
    + intros x Hx. by apply (evaluate_second_throws ord cls l r vars a).
  - intros a b Hl Hr Hnz.
    rewrite (evaluate_both_return ord cls l r vars a b Hl Hr).
    by rewrite decide_False by naive_solver.
  - intros _. reflexivity.
Qed.

Lemma evaluate_operand_order_witness :
  evaluate left_to_right
    (BinaryOp IntegerDivide (Variable_ "undef") (Constant 0)) ∅
  = Throws DivisionByZero
  ∧ evaluate left_to_right
      (BinaryOp Add (Variable_ "undef") (BinaryOp IntegerDivide (Constant 1) (Constant 0))) ∅
    = Throws (UndefinedVariable "undef")
  ∧ evaluate left_to_right (BinaryOp Subtract (Constant 7) (Constant 2)) ∅
    = Returns 5%Z.
Proof.
  split_and!.
  - apply (evaluate_operand_order left_to_right IntegerDivide
             (Variable_ "undef") (Constant 0) ∅). reflexivity.
  - apply (evaluate_operand_order left_to_right Add (Variable_ "undef")
             (BinaryOp IntegerDivide (Constant 1) (Constant 0)) ∅). reflexivity.
  - destruct (evaluate_operand_order left_to_right Subtract
                (Constant 7) (Constant 2) ∅) as (_ & _ & _ & _ & _ & H & _).
    apply (H 7%Z 2%Z); [reflexivity..|discriminate].
Defined.

(* ################################################################# *)
(** * Properties of the store layer *)

(** ** [evaluate] and [print] through pointers *)

Lemma bind_run {A B} (c : M A) (k : A → M B) m :
  (c ≫= k) m =
    match c m with
    | (Returns a, m') => k a m'
    | (Throws e, m') => (Throws e, m')
    | (Undefined, m') => (Undefined, m')
    end.
Proof. reflexivity. Qed.

Lemma deref_run p m :
  deref p m =
    (match store m !! p with
     | Some b => if Nat.eqb (use_count b) 0 then Undefined else Returns (managed b)
     | None => Undefined
     end, m).
Proof. unfold deref. by repeat case_match. Qed.

(** [evaluate] writes nothing: the heap, the pools, the context and the
    stream are the same after the call, whatever its outcome. *)
Lemma evaluate_at_frame ord fuel p m : (evaluate_at ord fuel p m).2 = m.
Proof.
  revert p m. induction fuel as [|fuel IH]; intros p m; [done|].
  simpl. rewrite bind_run, deref_run.
  destruct (store m !! p) as [blk|]; [|done].
  destruct (Nat.eqb (use_count blk) 0); [done|].
  destruct (managed blk) as [v|n|cls l r]; [done| |].
  - rewrite bind_run. unfold vars_contains, vars_at, throw.
    by destruct (negb _).
  - assert (Hseq : ∀ (p q : nat) (k : Z → Z → M Z),
              (∀ a b m, (k a b m).2 = m) →
              ((a ← evaluate_at ord fuel p; b ← evaluate_at ord fuel q; k a b) m).2 = m).
    { intros p' q' k Hk. rewrite bind_run.
      pose proof (IH p' m) as Hp.
      destruct (evaluate_at ord fuel p' m) as [[a| |] m1]; simpl in Hp; subst m1; [|done..].
      rewrite bind_run. pose proof (IH q' m) as Hq.
      destruct (evaluate_at ord fuel q' m) as [[b| |] m1]; simpl in Hq; subst m1; [|done..].
      apply Hk. }
    destruct cls; try (destruct (ord _)).
    + apply (Hseq l r (λ a b, lift (arith Add a b))). done.
    + apply (Hseq r l (λ b a, lift (arith Add a b))). done.
    + apply (Hseq l r (λ a b, lift (arith Subtract a b))). done.
    + apply (Hseq r l (λ b a, lift (arith Subtract a b))). done.
    + rewrite bind_run. pose proof (IH r m) as Hr.
      destruct (evaluate_at ord fuel r m) as [[d| |] m1]; simpl in Hr; subst m1; [|done..].
      destruct (d =? 0)%Z; [done|].
      rewrite bind_run. pose proof (IH l m) as Hl.
      by destruct (evaluate_at ord fuel l m) as [[a| |] m1]; simpl in Hl; subst m1.
    + apply (Hseq l r (λ a b, lift (arith Multiply a b))). done.
    + apply (Hseq r l (λ b a, lift (arith Multiply a b))). done.
Qed.

Lemma set_cout_id m : set_cout (cout m) m = m.
Proof. by destruct m. Qed.

Lemma set_cout_set_cout s t m : set_cout s (set_cout t m) = set_cout s m.
Proof. done. Qed.

Lemma only_appends_ret {A} (a : A) : only_appends (mret a).
Proof. intros m. exists "". by rewrite app_empty_r, set_cout_id. Qed.

Lemma only_appends_undefined {A} : only_appends (@undefined A).
Proof. intros m. exists "". by rewrite app_empty_r, set_cout_id. Qed.

Lemma only_appends_deref p : only_appends (deref p).
Proof.
  intros m. exists "". rewrite deref_run. simpl.
  by rewrite app_empty_r, set_cout_id.
Qed.

Lemma only_appends_put s : only_appends (put s).
Proof. intros m. by exists s. Qed.

Lemma only_appends_bind {A B} (c : M A) (k : A → M B) :
  only_appends c → (∀ a, only_appends (k a)) → only_appends (c ≫= k).
Proof.
  intros Hc Hk m. rewrite bind_run. destruct (Hc m) as [s Hs].
  destruct (c m) as [[a| |] m1]; simpl in Hs; subst m1; [|by exists s..].
  destruct (Hk a (set_cout (cout m +:+ s) m)) as [t Ht].
  exists (s +:+ t). rewrite Ht. simpl. by rewrite app_assoc_s.
Qed.

Lemma print_at_only_appends fuel p : only_appends (print_at fuel p).
Proof.
  revert p. induction fuel as [|fuel IH]; intros p;
    [apply only_appends_undefined|].
  simpl. apply only_appends_bind; [apply only_appends_deref|].
  intros [v|n|cls l r]; try apply only_appends_put.
  repeat (apply only_appends_bind; [first [apply only_appends_put | apply IH]|];
          intros _).
  apply only_appends_put.
Qed.

Lemma never_throws_bind {A B} (c : M A) (k : A → M B) :
  never_throws c → (∀ a, never_throws (k a)) → never_throws (c ≫= k).
Proof.
  intros Hc Hk m x. rewrite bind_run. pose proof (Hc m) as Hm.
  destruct (c m) as [[a| |] m1]; simpl in *;
    [apply Hk | by destruct (Hm e) | done].
Qed.

Lemma never_throws_deref p : never_throws (deref p).
Proof. intros m x. rewrite deref_run. simpl. by repeat case_match. Qed.

Lemma never_throws_put s : never_throws (put s).
Proof. by intros m x. Qed.

Lemma print_at_never_throws fuel p : never_throws (print_at fuel p).
Proof.
  revert p. induction fuel as [|fuel IH]; intros p; [by intros m x|].
  simpl. apply never_throws_bind; [apply never_throws_deref|].
  intros [v|n|cls l r]; try apply never_throws_put.
  repeat (apply never_throws_bind; [first [apply never_throws_put | apply IH]|];
          intros _).
  apply never_throws_put.
Qed.

(** ** The tree a pointer stands for *)

Lemma view_S fuel h p e : view fuel h p = Some e → view (S fuel) h p = Some e.
Proof.
  revert p e. induction fuel as [|fuel IH]; intros p e; [done|].
  intros H. simpl in H. change (view (S (S fuel)) h p) with
    (match h !! p with
     | None => None
     | Some b =>
         if Nat.eqb (use_count b) 0 then None
         else match managed b with
              | ConstantObject value => Some (Constant value)
              | VariableObject name => Some (Variable_ name)
              | BinaryOpObject cls l r =>
                  match view (S fuel) h l, view (S fuel) h r with
                  | Some l', Some r' => Some (BinaryOp cls l' r')
                  | _, _ => None
                  end
              end
     end).
  destruct (h !! p) as [blk|]; [|done].
  destruct (Nat.eqb (use_count blk) 0); [done|].
  destruct (managed blk) as [v|n|cls l r]; [done..|].
  destruct (view fuel h l) as [l'|] eqn:Hl; [|done].
  destruct (view fuel h r) as [r'|] eqn:Hr; [|done].
  by rewrite (IH _ _ Hl), (IH _ _ Hr).
Qed.

Lemma view_le fuel fuel' h p e :
  fuel ≤ fuel' → view fuel h p = Some e → view fuel' h p = Some e.
Proof. induction 1; [done|]. intros. apply view_S. auto. Qed.

(** Through pointers, [print] writes what [print] on the tree writes. *)
Lemma print_at_view fuel m p e :
  view fuel (store m) p = Some e →
  print_at fuel p m = (Returns (), set_cout (print e (cout m)) m).
Proof.
  revert m p e. induction fuel as [|fuel IH]; intros m p e Hv; [done|].
  simpl in Hv. simpl. rewrite bind_run, deref_run.
  destruct (store m !! p) as [blk|]; [|done].
  destruct (Nat.eqb (use_count blk) 0); [done|].
  destruct (managed blk) as [v|n|cls l r]; [by injection Hv as <-..|].
  destruct (view fuel (store m) l) as [l'|] eqn:Hl; [|done].
  destruct (view fuel (store m) r) as [r'|] eqn:Hr; [|done].
  injection Hv as <-.
  rewrite bind_run. unfold put at 1. 
  rewrite bind_run, (IH _ l l') by done.
  rewrite bind_run. unfold put at 1.
  rewrite bind_run. unfold put at 1.
  rewrite bind_run. unfold put at 1.
  rewrite bind_run, (IH _ r r') by done.
  unfold put. simpl. done.
Qed.

(** Through pointers, [evaluate] computes what [evaluate] on the tree
    computes. *)
Lemma evaluate_at_view ord fuel m p e :
  view fuel (store m) p = Some e →
  evaluate_at ord fuel p m = (evaluate ord e (vars m), m).
Proof.
  revert p e. induction fuel as [|fuel IH]; intros p e Hv; [done|].
  simpl in Hv. simpl. rewrite bind_run, deref_run.
  destruct (store m !! p) as [blk|]; [|done].
  destruct (Nat.eqb (use_count blk) 0); [done|].
  destruct (managed blk) as [v|n|cls l r].
  - by injection Hv as <-.
  - injection Hv as <-. rewrite bind_run. unfold vars_contains, vars_at, throw.
    simpl. by destruct (negb _).
  - destruct (view fuel (store m) l) as [l'|] eqn:Hl; [|done].
    destruct (view fuel (store m) r) as [r'|] eqn:Hr; [|done].
    injection Hv as <-.
    assert (Hfirst : ∀ p ep (k : Z → M Z) (k' : Z → outcome Z),
              view fuel (store m) p = Some ep →
              (∀ a, k a m = (k' a, m)) →
              (evaluate_at ord fuel p ≫= k) m = (evaluate ord ep (vars m) ≫= k', m)).
    { intros p0 ep k k' Hp Hk. rewrite bind_run, (IH _ _ Hp).
      destruct (evaluate ord ep (vars m)) as [a| |]; [apply Hk | done..]. }
    destruct cls; simpl; try (destruct (ord _); simpl).
    + rewrite (Hfirst l l' _ (λ a, b ← evaluate ord r' (vars m); int_add a b) Hl).
      { by destruct (evaluate ord l' (vars m)), (evaluate ord r' (vars m)). }
      intros a. by apply Hfirst.
    + rewrite (Hfirst r r' _ (λ b, a ← evaluate ord l' (vars m); int_add a b) Hr).
      { by destruct (evaluate ord l' (vars m)), (evaluate ord r' (vars m)). }
      intros a. by apply Hfirst.
    + rewrite (Hfirst l l' _ (λ a, b ← evaluate ord r' (vars m); int_sub a b) Hl).
      { by destruct (evaluate ord l' (vars m)), (evaluate ord r' (vars m)). }
      intros a. by apply Hfirst.
    + rewrite (Hfirst r r' _ (λ b, a ← evaluate ord l' (vars m); int_sub a b) Hr).
      { by destruct (evaluate ord l' (vars m)), (evaluate ord r' (vars m)). }
      intros a. by apply Hfirst.
    + apply Hfirst; [done|]. intros d. destruct (d =? 0)%Z; [done|].
      by apply Hfirst.
    + rewrite (Hfirst l l' _ (λ a, b ← evaluate ord r' (vars m); int_mul a b) Hl).
      { by destruct (evaluate ord l' (vars m)), (evaluate ord r' (vars m)). }
      intros a. by apply Hfirst.
    + rewrite (Hfirst r r' _ (λ b, a ← evaluate ord l' (vars m); int_mul a b) Hr).
      { by destruct (evaluate ord l' (vars m)), (evaluate ord r' (vars m)). }
      intros a. by apply Hfirst.
Qed.

(** ** Use counts under the pointer operations *)

Section StoreFacts.
Implicit Types (h : list control_block) (p q : nat) (blk : control_block).

Lemma use_count_at_lt h p : 0 < use_count_at h p → p < length h.
Proof.
  unfold use_count_at. destruct (h !! p) eqn:E; [|lia].
  intros _. by eapply lookup_lt_Some.
Qed.

Lemma alive_lt h p : alive h p → p < length h.
Proof. apply use_count_at_lt. Qed.

Lemma use_count_at_ge h p : length h ≤ p → use_count_at h p = 0.
Proof. intros H. unfold use_count_at. by rewrite lookup_ge_None_2. Qed.

Lemma use_count_at_snoc h blk q :
  use_count_at (h ++ [blk]) q =
    if decide (q = length h) then use_count blk else use_count_at h q.
Proof.
  unfold use_count_at. case_decide as Hq.
  - subst. by rewrite list_lookup_middle.
  - destruct (decide (q < length h)).
    + by rewrite lookup_app_l.
    + rewrite !lookup_ge_None_2; [done | lia | rewrite length_app; simpl; lia].
Qed.

Lemma object_at_snoc h blk q :
  object_at (h ++ [blk]) q =
    if decide (q = length h) then Some (managed blk) else object_at h q.
Proof.
  unfold object_at. case_decide as Hq.
  - subst. by rewrite list_lookup_middle.
  - destruct (decide (q < length h)).
    + by rewrite lookup_app_l.
    + rewrite !lookup_ge_None_2; [done | lia | rewrite length_app; simpl; lia].
Qed.

Lemma use_count_at_add_ref h p q :
  use_count_at (add_ref p h) q =
    if decide (q = p ∧ p < length h) then S (use_count_at h p)
    else use_count_at h q.
Proof.
  unfold use_count_at, add_ref. case_decide as Hq.
  - destruct Hq as [-> Hlt]. rewrite list_lookup_alter_eq.
    destruct (lookup_lt_is_Some_2 h p Hlt) as [blk ->]. done.
  - destruct (decide (q = p)) as [->|Hne].
    + rewrite list_lookup_alter_eq.
      rewrite lookup_ge_None_2; [done | lia].
    + by rewrite list_lookup_alter_ne.
Qed.

Lemma object_at_add_ref h p q : object_at (add_ref p h) q = object_at h q.
Proof.
  unfold object_at, add_ref. destruct (decide (q = p)) as [->|Hne].
  - rewrite list_lookup_alter_eq. by destruct (h !! p).
  - by rewrite list_lookup_alter_ne.
Qed.

Lemma length_add_ref h p : length (add_ref p h) = length h.
Proof. apply length_alter. Qed.

Lemma refs_in_snoc h blk q : refs_in (h ++ [blk]) q = refs_in h q + refs_from blk q.
Proof. unfold refs_in. rewrite sum_list_with_app. simpl. lia. Qed.

Lemma refs_in_insert h p blk blk' q :
  h !! p = Some blk →
  refs_in (<[p := blk']> h) q + refs_from blk q = refs_in h q + refs_from blk' q.
Proof.
  unfold refs_in. revert p. induction h as [|b h IH]; intros [|p] Hp; try done.
  - injection Hp as ->. simpl. lia.
  - simpl in *. specialize (IH p Hp). lia.
Qed.

Lemma add_ref_insert h p blk :
  h !! p = Some blk →
  add_ref p h = <[p := ControlBlock (S (use_count blk)) (managed blk)]> h.
Proof.
  intros Hp. unfold add_ref. apply list_eq. intros i.
  destruct (decide (i = p)) as [->|Hne].
  - rewrite list_lookup_alter_eq, Hp, list_lookup_insert_eq; [done|].
    by eapply lookup_lt_Some.
  - by rewrite list_lookup_alter_ne, list_lookup_insert_ne.
Qed.

Lemma refs_in_add_ref h p q : alive h p → refs_in (add_ref p h) q = refs_in h q.
Proof.
  intros Hp. unfold alive, use_count_at in Hp.
  destruct (h !! p) as [blk|] eqn:E; [|lia].
  rewrite (add_ref_insert h p blk E).
  pose proof (refs_in_insert h p blk
                (ControlBlock (S (use_count blk)) (managed blk)) q E) as H.
  unfold refs_from in H. simpl in H.
  destruct (use_count blk); [lia|]. simpl in H. lia.
Qed.

Lemma children_before_snoc h obj n :
  children_before h →
  (∀ cls l r, obj = BinaryOpObject cls l r → l < length h ∧ r < length h) →
  children_before (h ++ [ControlBlock n obj]).
Proof.
  intros Hh Hobj p blk cls l r Hp Hm.
  apply lookup_app_Some in Hp as [Hp | [Hge Hp]]; [by eapply Hh|].
  apply list_lookup_singleton_Some in Hp as [Hz <-].
  simpl in Hm. assert (p = length h) as -> by lia. by eapply Hobj.
Qed.

Lemma children_before_same_objects h h' :
  (∀ p, object_at h' p = object_at h p) →
  children_before h → children_before h'.
Proof.
  intros Hobj Hh p blk cls l r Hp Hm.
  specialize (Hobj p). unfold object_at in Hobj. rewrite Hp in Hobj.
  destruct (h !! p) as [blk0|] eqn:E; [|done].
  simpl in Hobj. injection Hobj as Hobj.
  eapply (Hh p blk0); [done | by rewrite <- Hobj].
Qed.

(** *** Destruction of a handle *)

Lemma reset_objects fuel p h q : object_at (reset fuel p h) q = object_at h q.
Proof.
  revert p h. induction fuel as [|fuel IH]; intros p h; [done|].
  simpl. destruct (h !! p) as [blk|] eqn:E; [|done].
  assert (Hins : ∀ n, object_at (<[p := ControlBlock n (managed blk)]> h) q
                      = object_at h q).
  { intros n. unfold object_at. destruct (decide (q = p)) as [->|Hne].
    - rewrite list_lookup_insert_eq by (by eapply lookup_lt_Some). by rewrite E.
    - by rewrite list_lookup_insert_ne. }
  destruct (use_count blk) as [|[|n]]; [done| |apply Hins].
  destruct (managed blk) as [v|n|cls l r]; try apply Hins.
  rewrite !IH. apply Hins.
Qed.

Lemma reset_length fuel p h : length (reset fuel p h) = length h.
Proof.
  revert p h. induction fuel as [|fuel IH]; intros p h; [done|].
  simpl. destruct (h !! p) as [blk|] eqn:E; [|done].
  destruct (use_count blk) as [|[|n]]; [done| |apply length_insert].
  destruct (managed blk) as [v|n|cls l r]; rewrite ?IH; apply length_insert.
Qed.

Lemma use_count_at_insert h p blk q :
  p < length h →
  use_count_at (<[p := blk]> h) q =
    if decide (q = p) then use_count blk else use_count_at h q.
Proof.
  intros Hp. unfold use_count_at. case_decide as Hq.
  - subst. by rewrite list_lookup_insert_eq.
  - by rewrite list_lookup_insert_ne.
Qed.

(** A destruction never adds an owner. *)
Lemma reset_use_count_le fuel p h q :
  use_count_at (reset fuel p h) q ≤ use_count_at h q.
Proof.
  revert p h. induction fuel as [|fuel IH]; intros p h; [done|].
  simpl. destruct (h !! p) as [blk|] eqn:E; [|done].
  pose proof (lookup_lt_Some _ _ _ E) as Hlt.
  assert (Hins : ∀ n, n ≤ use_count blk →
            use_count_at (<[p := ControlBlock n (managed blk)]> h) q
            ≤ use_count_at h q).
  { intros n Hn. rewrite use_count_at_insert by done. case_decide; [|done].
    subst. unfold use_count_at. rewrite E. done. }
  destruct (use_count blk) as [|[|n]] eqn:Hc; [done| |apply Hins; lia].
  destruct (managed blk) as [v|n|cls l r]; try (apply Hins; lia).
  etrans; [apply IH|]. etrans; [apply IH|]. apply Hins. lia.
Qed.

(** The chain of destructions settles every count.  [E] lists the owners
    that have gone but whose count is still to be given back. *)
Lemma reset_counts fuel p h hs E :
  children_before h → p < fuel →
  (∀ q, use_count_at h q
        = count_occ Nat.eq_dec hs q + refs_in h q + count_occ Nat.eq_dec (p :: E) q) →
  ∀ q, use_count_at (reset fuel p h) q
       = count_occ Nat.eq_dec hs q + refs_in (reset fuel p h) q
         + count_occ Nat.eq_dec E q.
Proof.
  revert p h E. induction fuel as [|fuel IH]; intros p h E Hch Hfuel Hc; [lia|].
  simpl. pose proof (Hc p) as Hp. simpl in Hp.
  destruct (Nat.eq_dec p p) as [_|]; [|done].
  unfold use_count_at in Hp.
  destruct (h !! p) as [blk|] eqn:E1; [|lia].
  pose proof (lookup_lt_Some _ _ _ E1) as Hlt.
  destruct (use_count blk) as [|[|n]] eqn:Hn; [lia| |].
  - (* the last owner *)
    set (h1 := <[p := ControlBlock 0 (managed blk)]> h).
    assert (Hrefs : ∀ q, refs_in h1 q + refs_from blk q = refs_in h q).
    { intros q. pose proof (refs_in_insert h p blk (ControlBlock 0 (managed blk)) q E1) as H.
      unfold refs_from at 2 in H. simpl in H. fold h1 in H. lia. }
    assert (Huc : ∀ q, use_count_at h1 q = if decide (q = p) then 0 else use_count_at h q).
    { intros q. unfold h1. by rewrite use_count_at_insert. }
    destruct (managed blk) as [v|name|cls l r] eqn:Hm.
    + intros q. specialize (Hrefs q). specialize (Hc q). rewrite Huc.
      unfold refs_from in Hrefs. rewrite Hn, Hm in Hrefs. simpl in Hrefs, Hc.
      case_decide; destruct (Nat.eq_dec p q); subst; try done; lia.
    + intros q. specialize (Hrefs q). specialize (Hc q). rewrite Huc.
      unfold refs_from in Hrefs. rewrite Hn, Hm in Hrefs. simpl in Hrefs, Hc.
      case_decide; destruct (Nat.eq_dec p q); subst; try done; lia.
    + destruct (Hch p blk cls l r E1 Hm) as [Hl Hr].
      assert (Hch1 : children_before h1).
      { apply (children_before_same_objects h); [|done].
        intros q. unfold h1, object_at. destruct (decide (q = p)) as [->|Hne].
        - rewrite list_lookup_insert_eq by done. rewrite E1. simpl. by rewrite Hm.
        - by rewrite list_lookup_insert_ne. }
      apply IH; [|lia|].
      { apply (children_before_same_objects h1); [|done].
        intros q. apply reset_objects. }
      apply IH; [done|lia|].
      intros q. specialize (Hrefs q). specialize (Hc q). rewrite Huc.
      unfold refs_from in Hrefs. rewrite Hn, Hm in Hrefs. simpl in Hrefs, Hc |- *.
      repeat case_decide; repeat destruct (Nat.eq_dec _ _); subst; try done; lia.
  - (* other owners remain *)
    set (h1 := <[p := ControlBlock (S n) (managed blk)]> h).
    intros q.
    pose proof (refs_in_insert h p blk (ControlBlock (S n) (managed blk)) q E1) as H.
    unfold refs_from in H. rewrite Hn in H. simpl in H. fold h1 in H.
    specialize (Hc q). unfold h1 at 1. rewrite use_count_at_insert by done.
    simpl in Hc.
    case_decide; destruct (Nat.eq_dec p q); subst; try done; simpl;
      destruct (managed blk); lia.
Qed.

End StoreFacts.

(** ** The pools *)

Section PoolFacts.
Context `{Countable K}.
Implicit Types (h : list control_block) (pool : gmap K (option nat)) (key : K).

Lemma expired_alive h p : expired h (Some p) = false ↔ alive h p.
Proof.
  unfold expired, alive. destruct (Nat.eqb_spec (use_count_at h p) 0); split;
    intros; try done; lia.
Qed.

(** [prune] keeps exactly the entries that still resolve. *)
Lemma prune_lookup_Some h pool key wp :
  prune h pool !! key = Some wp ↔ pool !! key = Some wp ∧ expired h wp = false.
Proof. unfold prune. by rewrite map_lookup_filter_Some. Qed.

Lemma prune_lookup_alive h pool key p :
  prune h pool !! key = Some (Some p) ↔ pool !! key = Some (Some p) ∧ alive h p.
Proof. by rewrite prune_lookup_Some, expired_alive. Qed.

Lemma prune_lookup_None h pool key :
  prune h pool !! key = None ↔
  pool !! key = None ∨ ∃ wp, pool !! key = Some wp ∧ expired h wp = true.
Proof.
  unfold prune. rewrite map_lookup_filter_None. split.
  - intros [Hn | Hall]; [by left|].
    destruct (pool !! key) as [wp|] eqn:E; [|by left].
    right. exists wp. split; [done|]. specialize (Hall wp eq_refl). simpl in Hall.
    by destruct (expired h wp).
  - intros [Hn | (wp & Hwp & He)]; [by left|].
    right. intros wp' Hwp'. simpl. congruence.
Qed.

Lemma prune_no_empty h pool key : prune h pool !! key ≠ Some None.
Proof. intros Hp. apply prune_lookup_Some in Hp as [_ He]. done. Qed.

Lemma intern_hit mk key h pool p :
  pool !! key = Some (Some p) → alive h p →
  intern mk key h pool = (p, add_ref p h, prune h pool).
Proof.
  intros Hk Ha. unfold intern, subscript.
  rewrite (proj2 (prune_lookup_alive h pool key p)) by done.
  unfold lock. by rewrite (proj2 (expired_alive h p)).
Qed.

Lemma intern_miss mk key h pool :
  (∀ p, pool !! key = Some (Some p) → ¬ alive h p) →
  intern mk key h pool
  = (length h, h ++ [ControlBlock 1 (mk key)],
     <[key := Some (length h)]> (prune h pool)).
Proof.
  intros Hk. unfold intern, subscript.
  destruct (prune h pool !! key) as [[p|]|] eqn:E.
  - apply prune_lookup_alive in E as [E Ha]. by destruct (Hk p).
  - by apply prune_no_empty in E.
  - simpl. by rewrite insert_insert_eq.
Qed.

Lemma intern_cases mk key h pool :
  (∃ p, pool !! key = Some (Some p) ∧ alive h p
        ∧ intern mk key h pool = (p, add_ref p h, prune h pool))
  ∨ ((∀ p, pool !! key = Some (Some p) → ¬ alive h p)
     ∧ intern mk key h pool
       = (length h, h ++ [ControlBlock 1 (mk key)],
          <[key := Some (length h)]> (prune h pool))).
Proof.
  destruct (pool !! key) as [[p|]|] eqn:E.
  - destruct (decide (0 < use_count_at h p)) as [Ha|Ha].
    + left. exists p. split_and!; [done..|]. by apply intern_hit.
    + right. split; [by intros ? [= <-]|]. apply intern_miss.
      rewrite E. by intros ? [= <-].
  - right. split; [done|]. apply intern_miss. by rewrite E.
  - right. split; [done|]. apply intern_miss. by rewrite E.
Qed.

End PoolFacts.

Lemma getConstant_intern v m :
  getConstant v m =
    let '(p, h, pool) := intern ConstantObject v (store m) (constPool (factory m)) in
    (p, set_constPool pool (set_store h m)).
Proof.
  unfold getConstant, intern.
  destruct (subscript _ v) as [wp pool].
  by destruct (lock wp (store m)) as [[sp|] h].
Qed.

Lemma getVariable_intern name m :
  getVariable name m =
    let '(p, h, pool) := intern VariableObject name (store m) (varPool (factory m)) in
    (p, set_varPool pool (set_store h m)).
Proof.
  unfold getVariable, intern.
  destruct (subscript _ name) as [wp pool].
  by destruct (lock wp (store m)) as [[sp|] h].
Qed.

Section InternFacts.
Context `{Countable K}.
Variable mk : K → object.
Hypothesis mk_leaf : ∀ key, is_leaf (mk key).
Hypothesis mk_inj : ∀ k1 k2, mk k1 = mk k2 → k1 = k2.
Implicit Types (h : list control_block) (pool : gmap K (option nat)) (key : K).

Lemma object_at_lt h p o : object_at h p = Some o → p < length h.
Proof.
  unfold object_at. destruct (h !! p) eqn:E; [|done].
  intros _. by eapply lookup_lt_Some.
Qed.

Lemma refs_from_leaf n o p : is_leaf o → refs_from (ControlBlock n o) p = 0.
Proof. unfold refs_from. simpl. destruct (Nat.eqb n 0); [done|]. by destruct o. Qed.

(** What a request does to the heap: one more owner for the node it
    returns, nothing else. *)
Lemma intern_store key h pool p h' pool' :
  pool_typed mk h pool →
  intern mk key h pool = (p, h', pool') →
  (∀ q, q < length h → object_at h' q = object_at h q)
  ∧ object_at h' p = Some (mk key)
  ∧ (∀ q, use_count_at h' q = use_count_at h q + if decide (q = p) then 1 else 0)
  ∧ (∀ q, refs_in h' q = refs_in h q)
  ∧ (children_before h → children_before h').
Proof.
  intros Hty Hi.
  destruct (intern_cases mk key h pool) as [(p0 & Hk & Ha & Heq)|[Hk Heq]];
    rewrite Heq in Hi; injection Hi as <- <- <-.
  - split_and!.
    + intros q _. apply object_at_add_ref.
    + rewrite object_at_add_ref. by apply Hty.
    + intros q. rewrite use_count_at_add_ref. pose proof (alive_lt _ _ Ha).
      repeat case_decide; subst; try lia; naive_solver.
    + intros q. by apply refs_in_add_ref.
    + apply children_before_same_objects. intros q. apply object_at_add_ref.
  - split_and!.
    + intros q Hq. rewrite object_at_snoc. case_decide; [lia | done].
    + rewrite object_at_snoc. by rewrite decide_True.
    + intros q. rewrite use_count_at_snoc. case_decide; [|lia].
      subst. simpl. rewrite use_count_at_ge; lia.
    + intros q. rewrite refs_in_snoc, refs_from_leaf; [lia | apply mk_leaf].
    + intros Hch. apply children_before_snoc; [done|].
      intros cls l r Ho. pose proof (mk_leaf key) as Hl. by rewrite Ho in Hl.
Qed.

Lemma pool_typed_mono {K2} `{Countable K2} (mk2 : K2 → object) h h'
    (pool : gmap K2 (option nat)) :
  (∀ q, q < length h → object_at h' q = object_at h q) →
  pool_typed mk2 h pool → pool_typed mk2 h' pool.
Proof.
  intros Hobj Hty key p Hp. specialize (Hty key p Hp).
  rewrite Hobj; [done | by eapply object_at_lt].
Qed.

Lemma pool_complete_mono {K2} `{Countable K2} (mk2 : K2 → object) h h'
    (pool : gmap K2 (option nat)) made :
  (∀ q, q < length h → object_at h' q = object_at h q) →
  (∀ q, q ∈ made → alive h' q → alive h q) →
  pool_complete mk2 h pool made → pool_complete mk2 h' pool made.
Proof.
  intros Hobj Hal Hc key p Hin Ha Ho.
  apply Hc; [done | by apply Hal |].
  rewrite <- Hobj; [done|]. apply alive_lt. by apply Hal.
Qed.

(** The pool a request goes through stays typed and complete. *)
Lemma intern_typed key h pool p h' pool' :
  pool_typed mk h pool →
  intern mk key h pool = (p, h', pool') →
  pool_typed mk h' pool'.
Proof.
  intros Hty Hi.
  destruct (intern_store key h pool p h' pool' Hty Hi) as (Hobj & Hp & _).
  destruct (intern_cases mk key h pool) as [(p0 & Hk & Ha & Heq)|[Hk Heq]];
    rewrite Heq in Hi; injection Hi as <- <- <-.
  - intros key' q Hq. apply prune_lookup_alive in Hq as [Hq _].
    rewrite object_at_add_ref. by apply Hty.
  - intros key' q Hq. destruct (decide (key' = key)) as [->|Hne].
    + rewrite lookup_insert_eq in Hq. injection Hq as <-. done.
    + rewrite lookup_insert_ne in Hq by done.
      apply prune_lookup_alive in Hq as [Hq _].
      rewrite Hobj; [by apply Hty|]. eapply object_at_lt. by apply Hty.
Qed.

Lemma intern_complete key h pool p h' pool' made :
  pool_typed mk h pool →
  pool_complete mk h pool made →
  intern mk key h pool = (p, h', pool') →
  pool_complete mk h' pool' (p :: made).
Proof.
  intros Hty Hc Hi.
  destruct (intern_store key h pool p h' pool' Hty Hi) as (Hobj & Hp & Huc & _).
  assert (Hold : ∀ q, q ≠ p → alive h' q → alive h q).
  { intros q Hne. unfold alive. rewrite Huc. rewrite decide_False by done. lia. }
  destruct (intern_cases mk key h pool) as [(p0 & Hk & Ha & Heq)|[Hk Heq]];
    rewrite Heq in Hi; injection Hi as <- <- <-.
  - intros key' q Hin Haq Hoq. apply prune_lookup_alive.
    rewrite object_at_add_ref in Hoq.
    destruct (decide (q = p0)) as [->|Hne].
    + rewrite object_at_add_ref in Hp. rewrite Hp in Hoq.
      injection Hoq as Hoq. apply mk_inj in Hoq as <-. done.
    + apply elem_of_cons in Hin as [?|Hin]; [done|].
      split; [|by apply Hold]. apply Hc; [done | by apply Hold | done].
  - intros key' q Hin Haq Hoq.
    destruct (decide (q = length h)) as [->|Hne].
    + rewrite Hp in Hoq. injection Hoq as Hoq. apply mk_inj in Hoq as <-.
      by rewrite lookup_insert_eq.
    + apply elem_of_cons in Hin as [?|Hin]; [done|].
      pose proof (Hold q Hne Haq) as Haq'.
      rewrite Hobj in Hoq by (by apply alive_lt).
      pose proof (Hc key' q Hin Haq' Hoq) as Hq.
      destruct (decide (key' = key)) as [->|Hk'].
      * by destruct (Hk q).
      * rewrite lookup_insert_ne by done. by apply prune_lookup_alive.
Qed.

(** The other pool is left as it was. *)
Lemma intern_complete_other {K2} `{Countable K2} (mk2 : K2 → object)
    (pool2 : gmap K2 (option nat)) key h pool p h' pool' made :
  (∀ k k2, mk k ≠ mk2 k2) →
  pool_typed mk h pool →
  pool_complete mk2 h pool2 made →
  intern mk key h pool = (p, h', pool') →
  pool_complete mk2 h' pool2 (p :: made).
Proof.
  intros Hdis Hty Hc Hi.
  destruct (intern_store key h pool p h' pool' Hty Hi) as (Hobj & Hp & Huc & _).
  intros key2 q Hin Haq Hoq.
  destruct (decide (q = p)) as [->|Hne].
  - rewrite Hp in Hoq. injection Hoq as Hoq. by destruct (Hdis key key2).
  - apply elem_of_cons in Hin as [?|Hin]; [done|].
    assert (alive h q) as Haq'.
    { revert Haq. unfold alive. rewrite Huc. rewrite decide_False by done. lia. }
    apply Hc; [done..|]. rewrite <- Hobj; [done | by apply alive_lt].
Qed.

End InternFacts.

(** ** Every reachable state is consistent *)

Lemma ConstantObject_VariableObject v name : ConstantObject v ≠ VariableObject name.
Proof. done. Qed.

Lemma VariableObject_ConstantObject name v : VariableObject name ≠ ConstantObject v.
Proof. done. Qed.

Lemma ConstantObject_inj v w : ConstantObject v = ConstantObject w → v = w.
Proof. by intros [= ->]. Qed.

Lemma VariableObject_inj a b : VariableObject a = VariableObject b → a = b.
Proof. by intros [= ->]. Qed.

Lemma consistent_start : consistent start.
Proof.
  split; simpl.
  - by intros p blk cls l r Hp.
  - intros p. by destruct p.
  - by intros key p Hp.
  - by intros key p Hp.
  - intros key p Hin. by apply elem_of_nil in Hin.
  - intros key p Hin. by apply elem_of_nil in Hin.
  - intros p Hin. by apply elem_of_nil in Hin.
Qed.

Lemma consistent_ext c c' :
  store (machine c') = store (machine c) →
  factory (machine c') = factory (machine c) →
  owned c' = owned c → interned c' = interned c →
  consistent c → consistent c'.
Proof.
  intros Hs Hf Ho Hi [H1 H2 H3 H4 H5 H6 H7].
  split; unfold owners in *; rewrite ?Hs, ?Hf, ?Ho, ?Hi; done.
Qed.

Lemma owned_alive c p : consistent c → p ∈ owned c → alive (store (machine c)) p.
Proof.
  intros Hc Hin. unfold alive. rewrite (cons_counts c Hc). unfold owners.
  apply list_elem_of_In in Hin.
  apply (count_occ_In Nat.eq_dec) in Hin. lia.
Qed.

Lemma interned_lt c p : consistent c → p ∈ interned c → p < length (store (machine c)).
Proof.
  intros Hc Hin. destruct (cons_interned_leaf c Hc p Hin) as (o & Ho & _).
  by eapply object_at_lt.
Qed.

Lemma count_occ_remove_one p l q :
  p ∈ l →
  count_occ Nat.eq_dec l q
  = count_occ Nat.eq_dec (remove_one p l) q + count_occ Nat.eq_dec [p] q.
Proof.
  induction l as [|x l IH]; intros Hin; [by apply elem_of_nil in Hin|].
  simpl. destruct (decide (p = x)) as [->|Hne].
  - destruct (Nat.eq_dec x q); lia.
  - apply elem_of_cons in Hin as [?|Hin]; [done|]. specialize (IH Hin).
    simpl in *. destruct (Nat.eq_dec x q); destruct (Nat.eq_dec p q); lia.
Qed.

Lemma getConstant_consistent c v p m' :
  consistent c → getConstant v (machine c) = (p, m') →
  consistent (Cl m' (p :: owned c) (p :: interned c)).
Proof.
  intros Hc. rewrite getConstant_intern.
  destruct (intern _ v _ _) as [[p0 h'] pool'] eqn:Hi. intros [= <- <-].
  destruct Hc as [H1 H2 H3 H4 H5 H6 H7].
  destruct (intern_store ConstantObject (λ _, I) v _ _ _ _ _ H3 Hi)
    as (Hobj & Hp & Huc & Hrefs & Hch).
  split; simpl.
  - by apply Hch.
  - intros q. rewrite Huc, H2. unfold owners. simpl. rewrite Hrefs.
    case_decide; destruct (Nat.eq_dec p0 q); subst; try done; lia.
  - by eapply (intern_typed ConstantObject (λ _, I)).
  - by eapply (pool_typed_mono VariableObject).
  - by eapply (intern_complete ConstantObject (λ _, I) ConstantObject_inj).
  - eapply (intern_complete_other ConstantObject (λ _, I) VariableObject); try done.
  - intros q Hin. apply elem_of_cons in Hin as [->|Hin]; [by eexists|].
    destruct (H7 q Hin) as (o & Ho & Hl). exists o. split; [|done].
    rewrite Hobj; [done | by eapply object_at_lt].
Qed.

Lemma getVariable_consistent c name p m' :
  consistent c → getVariable name (machine c) = (p, m') →
  consistent (Cl m' (p :: owned c) (p :: interned c)).
Proof.
  intros Hc. rewrite getVariable_intern.
  destruct (intern _ name _ _) as [[p0 h'] pool'] eqn:Hi. intros [= <- <-].
  destruct Hc as [H1 H2 H3 H4 H5 H6 H7].
  destruct (intern_store VariableObject (λ _, I) name _ _ _ _ _ H4 Hi)
    as (Hobj & Hp & Huc & Hrefs & Hch).
  split; simpl.
  - by apply Hch.
  - intros q. rewrite Huc, H2. unfold owners. simpl. rewrite Hrefs.
    case_decide; destruct (Nat.eq_dec p0 q); subst; try done; lia.
  - by eapply (pool_typed_mono ConstantObject).
  - by eapply (intern_typed VariableObject (λ _, I)).
  - eapply (intern_complete_other VariableObject (λ _, I) ConstantObject); try done.
  - by eapply (intern_complete VariableObject (λ _, I) VariableObject_inj).
  - intros q Hin. apply elem_of_cons in Hin as [->|Hin]; [by eexists|].
    destruct (H7 q Hin) as (o & Ho & Hl). exists o. split; [|done].
    rewrite Hobj; [done | by eapply object_at_lt].
Qed.

Lemma new_leaf_consistent c o :
  consistent c → is_leaf o →
  consistent (Cl (set_store (store (machine c) ++ [ControlBlock 1 o]) (machine c))
                 (length (store (machine c)) :: owned c) (interned c)).
Proof.
  intros Hc Hleaf. pose proof (λ p, interned_lt c p Hc) as Hint.
  destruct Hc as [H1 H2 H3 H4 H5 H6 H7].
  set (h := store (machine c)) in *.
  assert (Hobj : ∀ q, q < length h →
            object_at (h ++ [ControlBlock 1 o]) q = object_at h q).
  { intros q Hq. rewrite object_at_snoc. case_decide; [lia | done]. }
  assert (Hal : ∀ q, q ∈ interned c →
            alive (h ++ [ControlBlock 1 o]) q → alive h q).
  { intros q Hq. unfold alive. rewrite use_count_at_snoc.
    case_decide; [|done]. specialize (Hint q Hq). lia. }
  split; simpl; fold h.
  - apply children_before_snoc; [done|]. intros cls l r ->. done.
  - intros q. unfold owners. simpl. fold h.
    rewrite use_count_at_snoc, refs_in_snoc, refs_from_leaf by done.
    specialize (H2 q). unfold owners in H2. fold h in H2.
    case_decide as Hq; destruct (Nat.eq_dec (length h) q) as [Hq'|Hq'];
      try done; try lia.
    rewrite use_count_at_ge in H2 by lia. simpl. lia.
  - by apply (pool_typed_mono ConstantObject h).
  - by apply (pool_typed_mono VariableObject h).
  - by apply (pool_complete_mono ConstantObject h).
  - by apply (pool_complete_mono VariableObject h).
  - intros q Hin. destruct (H7 q Hin) as (o' & Ho & Hl). exists o'.
    split; [|done]. rewrite Hobj; [done | by eapply object_at_lt].
Qed.

Lemma add_ref_consistent c p :
  consistent c → p ∈ owned c →
  consistent (Cl (set_store (add_ref p (store (machine c))) (machine c))
                 (p :: owned c) (interned c)).
Proof.
  intros Hc Hin. pose proof (owned_alive c p Hc Hin) as Ha.
  pose proof (alive_lt _ _ Ha) as Hlt.
  destruct Hc as [H1 H2 H3 H4 H5 H6 H7].
  set (h := store (machine c)) in *.
  assert (Hobj : ∀ q, q < length h → object_at (add_ref p h) q = object_at h q).
  { intros q _. apply object_at_add_ref. }
  assert (Hal : ∀ q, q ∈ interned c → alive (add_ref p h) q → alive h q).
  { intros q _. unfold alive. rewrite use_count_at_add_ref.
    case_decide as Hq; [|done]. destruct Hq as [-> _]. by intros _. }
  split; simpl; fold h.
  - apply (children_before_same_objects h); [|done].
    intros q. apply object_at_add_ref.
  - intros q. unfold owners. simpl. fold h.
    rewrite use_count_at_add_ref, refs_in_add_ref by done.
    specialize (H2 q). unfold owners in H2. fold h in H2.
    case_decide as Hq; destruct (Nat.eq_dec p q) as [Hq'|Hq'];
      try lia; try (subst q; lia); naive_solver.
  - by apply (pool_typed_mono ConstantObject h).
  - by apply (pool_typed_mono VariableObject h).
  - by apply (pool_complete_mono ConstantObject h).
  - by apply (pool_complete_mono VariableObject h).
  - intros q Hq. destruct (H7 q Hq) as (o' & Ho & Hl). exists o'.
    split; [|done]. by rewrite object_at_add_ref.
Qed.

Lemma release_consistent c p :
  consistent c → p ∈ owned c →
  consistent (Cl (set_store (release p (store (machine c))) (machine c))
                 (remove_one p (owned c)) (interned c)).
Proof.
  intros Hc Hin. destruct Hc as [H1 H2 H3 H4 H5 H6 H7].
  set (h := store (machine c)) in *.
  assert (Hobj : ∀ q, q < length h → object_at (release p h) q = object_at h q).
  { intros q _. apply reset_objects. }
  assert (Hal : ∀ q, q ∈ interned c → alive (release p h) q → alive h q).
  { intros q _. unfold alive, release.
    pose proof (reset_use_count_le (S p) p h q). lia. }
  split; simpl; fold h.
  - apply (children_before_same_objects h); [|done].
    intros q. apply reset_objects.
  - intros q. unfold owners. simpl. fold h. unfold release.
    rewrite (reset_counts (S p) p h (remove_one p (owned c)) []);
      [simpl; lia | done | lia |].
    intros q'. rewrite H2. unfold owners. fold h.
    rewrite (count_occ_remove_one p (owned c) q' Hin). lia.
  - by apply (pool_typed_mono ConstantObject h).
  - by apply (pool_typed_mono VariableObject h).
  - by apply (pool_complete_mono ConstantObject h).
  - by apply (pool_complete_mono VariableObject h).
  - intros q Hq. destruct (H7 q Hq) as (o' & Ho & Hl). exists o'.
    split; [|done]. unfold release. by rewrite reset_objects.
Qed.

Lemma make_binary_consistent c cls l r p m' :
  consistent c → l ∈ owned c → r ∈ owned c →
  make_binary cls l r (machine c) = (p, m') →
  consistent (Cl m' (p :: owned c) (interned c)).
Proof.
  intros Hc Hl Hr. unfold make_binary, make_shared. intros [= <- <-].
  pose proof (owned_alive c l Hc Hl) as Hal. pose proof (alive_lt _ _ Hal) as Hll.
  pose proof (owned_alive c r Hc Hr) as Har. pose proof (alive_lt _ _ Har) as Hrl.
  pose proof (λ p, interned_lt c p Hc) as Hint.
  destruct Hc as [H1 H2 H3 H4 H5 H6 H7].
  set (h := store (machine c)) in *.
  set (h2 := add_ref r (add_ref l h)).
  assert (Hlen : length h2 = length h) by (unfold h2; by rewrite !length_add_ref).
  assert (Huc2 : ∀ q, use_count_at h2 q
            = use_count_at h q + (if decide (q = l) then 1 else 0)
              + (if decide (q = r) then 1 else 0)).
  { intros q. unfold h2. rewrite !use_count_at_add_ref, length_add_ref.
    repeat case_decide; subst; try lia; naive_solver. }
  assert (Hrefs2 : ∀ q, refs_in h2 q = refs_in h q).
  { intros q. unfold h2. rewrite refs_in_add_ref, refs_in_add_ref; [done..|].
    unfold alive. rewrite use_count_at_add_ref. case_decide; unfold alive in *; lia. }
  assert (Hobj2 : ∀ q, object_at h2 q = object_at h q).
  { intros q. unfold h2. by rewrite !object_at_add_ref. }
  set (blk := ControlBlock 1 (BinaryOpObject cls l r)).
  assert (Hobj : ∀ q, q < length h → object_at (h2 ++ [blk]) q = object_at h q).
  { intros q Hq. rewrite object_at_snoc. case_decide; [lia | apply Hobj2]. }
  assert (Halv : ∀ q, q ∈ interned c → alive (h2 ++ [blk]) q → alive h q).
  { intros q Hq. unfold alive. rewrite use_count_at_snoc.
    specialize (Hint q Hq). case_decide; [lia|]. rewrite Huc2.
    unfold alive in *. repeat case_decide; subst; lia. }
  split; simpl; fold h; fold h2; fold blk.
  - apply children_before_snoc.
    + by apply (children_before_same_objects h).
    + intros cls' l' r' [= -> -> ->]. lia.
  - intros q. unfold owners. simpl. fold h h2 blk.
    rewrite use_count_at_snoc, refs_in_snoc, Hrefs2, Huc2, Hlen.
    specialize (H2 q). unfold owners in H2. fold h in H2.
    unfold refs_from, blk. simpl.
    case_decide as Hq.
    + subst q. rewrite use_count_at_ge in H2 by done.
      destruct (Nat.eq_dec (length h) (length h)); [|done].
      repeat case_decide; try lia.
    + destruct (Nat.eq_dec (length h) q); [done|].
      repeat case_decide; subst; try done; lia.
  - by apply (pool_typed_mono ConstantObject h).
  - by apply (pool_typed_mono VariableObject h).
  - by apply (pool_complete_mono ConstantObject h).
  - by apply (pool_complete_mono VariableObject h).
  - intros q Hq. destruct (H7 q Hq) as (o' & Ho & Hlf). exists o'.
    split; [|done]. rewrite Hobj; [done | by eapply object_at_lt].
Qed.

Lemma perform_consistent ord a c c' :
  consistent c → perform ord a c = Some c' → consistent c'.
Proof.
  intros Hc. destruct a as [v|name|v|name|cls l r|p|p|vs|p|p]; unfold perform.
  - destruct (getConstant v (machine c)) as [p m'] eqn:Hg. intros [= <-].
    by eapply getConstant_consistent.
  - destruct (getVariable name (machine c)) as [p m'] eqn:Hg. intros [= <-].
    by eapply getVariable_consistent.
  - unfold make_shared. intros [= <-]. by apply new_leaf_consistent.
  - unfold make_shared. intros [= <-]. by apply new_leaf_consistent.
  - case_decide as Hin; [|done]. destruct Hin as [Hl Hr].
    destruct (make_binary cls l r (machine c)) as [p m'] eqn:Hm. intros [= <-].
    exact (make_binary_consistent c cls l r p m' Hc Hl Hr Hm).
  - case_decide as Hin; [|done]. intros [= <-]. by apply add_ref_consistent.
  - case_decide as Hin; [|done]. intros [= <-]. by apply release_consistent.
  - intros [= <-]. by apply (consistent_ext c).
  - case_decide as Hin; [|done]. rewrite evaluate_at_frame. intros [= <-].
    by apply (consistent_ext c).
  - case_decide as Hin; [|done].
    destruct (print_at_only_appends (S p) p (machine c)) as [s ->].
    intros [= <-]. by apply (consistent_ext c).
Qed.

Lemma run_consistent ord acts c c' :
  consistent c → run ord acts c = Some c' → consistent c'.
Proof.
  revert c. induction acts as [|a acts IH]; intros c Hc; simpl.
  - by intros [= <-].
  - destruct (perform ord a c) as [c1|] eqn:Hp; [|done].
    apply IH. by eapply perform_consistent.
Qed.

Lemma reachable_consistent ord c : reachable ord c → consistent c.
Proof. intros [acts Hrun]. eapply run_consistent; [apply consistent_start | done]. Qed.

(* ################################################################# *)
(** * The claims *)

(** C4.  [evaluate] throws the undefined-variable error for [name] exactly
    when a [Variable] node called [name] is reached and the context has no
    entry for it; it throws the division error exactly when an
    [IntegerDivide] node is reached whose right operand evaluates to 0.
    It throws nothing else, an exception of a reached node is the outcome
    of the whole call (there is no partial result), and [print] never
    throws. *)
Theorem errors_of_evaluate ord e vars :
  (∀ name, evaluate ord e vars = Throws (UndefinedVariable name)
           ↔ Variable_ name ∈ reached ord e vars ∧ vars !! name = None)
  ∧ (evaluate ord e vars = Throws DivisionByZero
     ↔ ∃ l r, BinaryOp IntegerDivide l r ∈ reached ord e vars
              ∧ evaluate ord r vars = Returns 0%Z)
  ∧ (∀ x, evaluate ord e vars = Throws x
          → x = DivisionByZero ∨ ∃ name, x = UndefinedVariable name)
  ∧ (∀ sub x, sub ∈ reached ord e vars → evaluate ord sub vars = Throws x
              → evaluate ord e vars = Throws x)
  ∧ (∀ fuel p m x, (print_at fuel p m).1 ≠ Throws x).
Proof.
  split_and!.
  - intros name. split.
    + intros Hx. destruct (throws_origin ord e vars _ Hx)
        as [(n & Hin & Hn & Heq)|(l & r & _ & _ & Heq)].
      * apply UndefinedVariable_inj in Heq as ->. done.
      * by apply UndefinedVariable_DivisionByZero in Heq.
    + intros [Hin Hn]. apply (reached_throws ord e vars (Variable_ name)); [done|].
      by rewrite evaluate_Variable, Hn.
  - split.
    + intros Hx. destruct (throws_origin ord e vars _ Hx)
        as [(n & _ & _ & Heq)|(l & r & Hin & Hr & _)].
      * symmetry in Heq. by apply UndefinedVariable_DivisionByZero in Heq.
      * by exists l, r.
    + intros (l & r & Hin & Hr).
      apply (reached_throws ord e vars (BinaryOp IntegerDivide l r)); [done|].
      simpl. by rewrite Hr.
  - intros x Hx. destruct (throws_origin ord e vars _ Hx)
      as [(n & _ & _ & ->)|(l & r & _ & _ & ->)]; [right; by exists n | by left].
  - intros sub x. apply reached_throws.
  - intros fuel p m x. apply print_at_never_throws.
Qed.

Lemma errors_of_evaluate_witness :
  evaluate left_to_right (BinaryOp Add (Constant 1) (Variable_ "y"))
    {[ "x"%string := 3%Z ]} = Throws (UndefinedVariable "y")
  ∧ evaluate left_to_right
      (BinaryOp Multiply (Constant 1) (BinaryOp IntegerDivide (Constant 7) (Constant 0)))
      ∅ = Throws DivisionByZero.
Proof.
  split.
  - apply (errors_of_evaluate left_to_right
             (BinaryOp Add (Constant 1) (Variable_ "y")) {[ "x"%string := 3%Z ]}).
    split; [|reflexivity]. simpl. rewrite !elem_of_cons. auto.
  - apply (errors_of_evaluate left_to_right
             (BinaryOp Multiply (Constant 1)
                (BinaryOp IntegerDivide (Constant 7) (Constant 0))) ∅).
    exists (Constant 7), (Constant 0). split; [|reflexivity].
    simpl. rewrite !elem_of_cons. auto.
Defined.

(** C7.  [IntegerDivide] returns the quotient truncated toward zero: its
    sign is the product of the signs of the operands and its magnitude is
    the floor of the quotient of the magnitudes.  The one quotient that
    does not fit an [int] is [INT_MIN / -1].  In particular [-7 // 2] is
    [-3]. *)
Theorem integer_divide_truncates ord vars :
  (∀ l r a b,
     evaluate ord l vars = Returns a → evaluate ord r vars = Returns b →
     representable a = true → b ≠ 0%Z → ¬ (a = INT_MIN ∧ b = (-1)%Z) →
     evaluate ord (BinaryOp IntegerDivide l r) vars = Returns (a ÷ b)%Z
     ∧ (a ÷ b = Z.sgn a * Z.sgn b * (Z.abs a / Z.abs b))%Z)
  ∧ evaluate ord (BinaryOp IntegerDivide (Constant (-7)) (Constant 2)) vars
    = Returns (-3)%Z.
Proof.
  split; [|done].
  intros l r a b Hl Hr Ha Hb Hmin.
  assert (Hq : (a ÷ b = Z.sgn a * Z.sgn b * (Z.abs a / Z.abs b))%Z).
  { rewrite <- Z.quot_div by done. done. }
  split; [|done].
  simpl. rewrite Hr. simpl. destruct (Z.eqb_spec b 0); [done|].
  rewrite Hl. simpl. unfold int_div. destruct (Z.eqb_spec b 0); [done|].
  unfold to_int. replace (representable (a ÷ b)) with true; [done|].
  symmetry. unfold representable, INT_MIN, INT_MAX in *.
  apply andb_true_iff in Ha as [Ha1 Ha2].
  apply Z.leb_le in Ha1, Ha2.
  assert (Habs : (Z.abs (a ÷ b) <= Z.abs a)%Z).
  { rewrite <- Z.quot_abs by done.
    apply Z.quot_le_upper_bound; [lia|]. nia. }
  apply andb_true_iff. split; apply Z.leb_le; [lia|].
  destruct (decide (a = -2147483648)%Z) as [->|Hne]; [|lia].
  assert (b ≠ (-1)%Z) by naive_solver.
  rewrite Hq. change (Z.abs (-2147483648)) with 2147483648%Z.
  change (Z.sgn (-2147483648)) with (-1)%Z.
  destruct (Z.lt_trichotomy b 0) as [Hneg|[?|Hpos]]; [|done|].
  - rewrite (Z.sgn_neg b) by done.
    assert (2147483648 / Z.abs b <= 1073741824)%Z; [|lia].
    apply Z.div_le_upper_bound; lia.
  - rewrite (Z.sgn_pos b) by done.
    assert (0 <= 2147483648 / Z.abs b)%Z; [|lia].
    apply Z.div_pos; lia.
Qed.

Lemma integer_divide_truncates_witness :
  evaluate left_to_right
    (BinaryOp IntegerDivide (Constant 7) (Constant (-2))) ∅ = Returns (7 ÷ -2)%Z
  ∧ (7 ÷ -2 = Z.sgn 7 * Z.sgn (-2) * (Z.abs 7 / Z.abs (-2)))%Z.
Proof.
  apply (proj1 (integer_divide_truncates left_to_right ∅)
           (Constant 7) (Constant (-2)) 7%Z (-2)%Z);
    [reflexivity | reflexivity | reflexivity | discriminate |].
  intros [H _]. discriminate H.
Defined.

Lemma print_app e os : print e os = os +:+ render e.
Proof.
  unfold render. revert os. induction e as [v|n|cls l IHl r IHr]; intros os; simpl.
  - done.
  - done.
  - repeat match goal with
           | |- context [print r ?s] =>
               lazymatch s with
               | EmptyString => fail
               | _ => rewrite (IHr s)
               end
           | |- context [print l ?s] =>
               lazymatch s with
               | EmptyString => fail
               | _ => rewrite (IHl s)
               end
           end.
    by rewrite !app_assoc_s.
Qed.

Section PrintIgnoresVars.
Local Abbreviation ignores_vars c :=
  (∀ vs m, c (set_vars vs m) = ((c m).1, set_vars vs (c m).2)).

Lemma ignores_vars_bind {A B} (c : M A) (k : A → M B) :
  ignores_vars c → (∀ a, ignores_vars (k a)) → ignores_vars (c ≫= k).
Proof.
  intros Hc Hk vs m. rewrite !bind_run, Hc.
  destruct (c m) as [[a| |] m1]; simpl; [apply Hk | done..].
Qed.

Lemma print_at_ignores_vars fuel p : ignores_vars (print_at fuel p).
Proof.
  revert p. induction fuel as [|fuel IH]; intros p; [done|].
  simpl. apply ignores_vars_bind.
  { intros vs m. rewrite !deref_run. done. }
  intros [v|n|cls l r]; try done.
  repeat (apply ignores_vars_bind; [first [done | apply IH]|]; intros _).
  done.
Qed.

End PrintIgnoresVars.

(** C8.  [print] appends to the stream the text of the node and nothing
    else.  A constant prints the decimal string of its value: a minus sign
    exactly for a negative value, then the digits of the magnitude, most
    significant first, without a leading zero; no other text is that
    string.  A variable prints its name, and a binary node prints
    [(<left> <symbol> <right>)] with the symbols [+], [-], [*] and [//].
    Through pointers [print] returns normally on every expression, writes
    that same text, and does not depend on the context. *)
Theorem print_renders :
  (∀ e os, print e os = os +:+ render e)
  ∧ (∀ v text, render (Constant v) = text ↔ decimal_numeral v text)
  ∧ (∀ name, render (Variable_ name) = name)
  ∧ (∀ l r, render (BinaryOp Add l r)
            = "(" +:+ render l +:+ " + " +:+ render r +:+ ")")
  ∧ (∀ l r, render (BinaryOp Subtract l r)
            = "(" +:+ render l +:+ " - " +:+ render r +:+ ")")
  ∧ (∀ l r, render (BinaryOp Multiply l r)
            = "(" +:+ render l +:+ " * " +:+ render r +:+ ")")
  ∧ (∀ l r, render (BinaryOp IntegerDivide l r)
            = "(" +:+ render l +:+ " // " +:+ render r +:+ ")")
  ∧ (∀ fuel m p e, view fuel (store m) p = Some e →
       print_at fuel p m = (Returns (), set_cout (cout m +:+ render e) m))
  ∧ (∀ fuel p vs m,
       print_at fuel p (set_vars vs m)
       = ((print_at fuel p m).1, set_vars vs (print_at fuel p m).2)).
Proof.
  assert (Hbin : ∀ cls l r, render (BinaryOp cls l r)
            = "(" +:+ render l +:+ " " +:+ op cls +:+ " " +:+ render r +:+ ")").
  { intros cls l r. unfold render at 1. simpl.
    rewrite (print_app r), (print_app l). by rewrite !app_assoc_s. }
  split_and!; try (intros l r; by rewrite Hbin); try done.
  - apply print_app.
  - intros v text. rewrite decimal_numeral_unique. by split.
  - intros fuel m p e Hv. rewrite <- print_app. by apply print_at_view.
  - intros fuel p. apply print_at_ignores_vars.
Qed.

Lemma print_renders_witness :
  print_at 3 2 (Mach [ControlBlock 1 (ConstantObject (-7));
                      ControlBlock 1 (ConstantObject 120);
                      ControlBlock 1 (BinaryOpObject Subtract 0 1)]
                     (Factory ∅ ∅) ∅ "= ")
  = (Returns (),
     Mach [ControlBlock 1 (ConstantObject (-7));
           ControlBlock 1 (ConstantObject 120);
           ControlBlock 1 (BinaryOpObject Subtract 0 1)]
          (Factory ∅ ∅) ∅ "= (-7 - 120)")
  ∧ render (Constant (-7)) = "-7"%string.
Proof.
  destruct print_renders as (_ & Hnum & _ & _ & _ & _ & _ & H & _).
  split.
  - rewrite (H 3 _ 2 (BinaryOp Subtract (Constant (-7)) (Constant 120)))
      by reflexivity.
    reflexivity.
  - apply Hnum. unfold decimal_numeral. simpl.
    exists "7"%string. split; [reflexivity|].
    split_and!; [discriminate | intros t; discriminate | reflexivity].
Defined.

(** The order the compiler picks for the operands leaves no trace in the
    state. *)
Lemma perform_ord_irrelevant ord ord' a c : perform ord a c = perform ord' a c.
Proof.
  destruct a; try done. unfold perform.
  case_decide; [|done]. by rewrite !evaluate_at_frame.
Qed.

Lemma run_ord_irrelevant ord ord' acts c : run ord acts c = run ord' acts c.
Proof.
  revert c. induction acts as [|a acts IH]; intros c; [done|].
  simpl. rewrite (perform_ord_irrelevant ord ord').
  destruct (perform ord' a c); [apply IH | done].
Qed.

(** C9.  [(2 + x) * 5] evaluates to 25 under [{x: 3}] and is printed as
    ["((2 + x) * 5)"], on the tree and on the heap that [main] builds. *)
Theorem sample_evaluates_and_renders ord :
  evaluate ord sample {[ "x"%string := 3%Z ]} = Returns 25%Z
  ∧ render sample = "((2 + x) * 5)"%string
  ∧ ∃ c, run ord main_block start = Some c
         ∧ view 5 (store (machine c)) 4 = Some sample
         ∧ vars (machine c) = {[ "x"%string := 3%Z ]}
         ∧ cout (machine c) = "((2 + x) * 5)"%string
         ∧ evaluate_at ord 5 4 (machine c) = (Returns 25%Z, machine c).
Proof.
  assert (He : evaluate ord sample {[ "x"%string := 3%Z ]} = Returns 25%Z).
  { unfold sample. simpl. by destruct (ord Multiply), (ord Add). }
  split_and!; [done | done |].
  rewrite (run_ord_irrelevant ord left_to_right).
  eexists. split; [vm_compute; reflexivity|].
  split_and!; [done..|].
  rewrite (evaluate_at_view ord 5 _ 4 sample); [|done].
  f_equal. etrans; [|exact He]. by f_equal.
Qed.

(** C10.  [evaluate], whether it returns or fails, leaves the machine as
    it was: the nodes and their use counts, the pools, the context and the
    stream.  [print] changes the stream only, by appending to it.  So
    every node renders the same, and the context is the same, before and
    after either call. *)
Theorem evaluate_print_frame ord fuel p m :
  (evaluate_at ord fuel p m).2 = m
  ∧ store (print_at fuel p m).2 = store m
  ∧ factory (print_at fuel p m).2 = factory m
  ∧ vars (print_at fuel p m).2 = vars m
  ∧ (∃ s, cout (print_at fuel p m).2 = cout m +:+ s)
  ∧ (∀ q, render_at q (evaluate_at ord fuel p m).2 = render_at q m
          ∧ render_at q (print_at fuel p m).2 = render_at q m).
Proof.
  destruct (print_at_only_appends fuel p m) as [s Hs].
  split_and!; rewrite ?Hs, ?evaluate_at_frame; try done.
  by exists s.
Qed.

(** ** What a request returns *)

Section Requests.
Context `{Countable K}.
Variable mk : K → object.
Implicit Types (h : list control_block) (pool : gmap K (option nat)) (key : K).

(** After a request every entry of the pool resolves, and the entry of the
    requested key resolves to the node returned. *)
Lemma intern_entries_live key h pool p h' pool' :
  intern mk key h pool = (p, h', pool') →
  pool' !! key = Some (Some p)
  ∧ alive h' p
  ∧ ∀ key' wp, pool' !! key' = Some wp → ∃ q, wp = Some q ∧ alive h' q.
Proof.
  intros Hi.
  destruct (intern_cases mk key h pool) as [(p0 & Hk & Ha & Heq)|[Hk Heq]];
    rewrite Heq in Hi; injection Hi as <- <- <-.
  - assert (Hup : ∀ q, alive h q → alive (add_ref p0 h) q).
    { intros q. unfold alive. rewrite use_count_at_add_ref. case_decide; lia. }
    split_and!.
    + by apply prune_lookup_alive.
    + by apply Hup.
    + intros key' [q|] Hq; [|by apply prune_no_empty in Hq].
      apply prune_lookup_alive in Hq as [_ Hq]. exists q. auto.
  - assert (Hup : ∀ q, alive h q → alive (h ++ [ControlBlock 1 (mk key)]) q).
    { intros q Hq. unfold alive. rewrite use_count_at_snoc.
      pose proof (alive_lt _ _ Hq). case_decide; [lia | done]. }
    assert (Hnew : alive (h ++ [ControlBlock 1 (mk key)]) (length h)).
    { unfold alive. rewrite use_count_at_snoc, decide_True by done. simpl. lia. }
    split_and!.
    + by rewrite lookup_insert_eq.
    + done.
    + intros key' wp Hq. destruct (decide (key' = key)) as [->|Hne].
      * rewrite lookup_insert_eq in Hq. injection Hq as <-. eauto.
      * rewrite lookup_insert_ne in Hq by done. destruct wp as [q|];
          [|by apply prune_no_empty in Hq].
        apply prune_lookup_alive in Hq as [_ Hq]. exists q. auto.
Qed.

(** A request for a key whose entry resolves allocates nothing; any other
    request allocates one block, for a node that did not exist before. *)
Lemma intern_allocation key h pool p h' pool' :
  intern mk key h pool = (p, h', pool') →
  (∃ q, pool !! key = Some (Some q) ∧ alive h q ∧ p = q ∧ length h' = length h)
  ∨ ((∀ q, pool !! key = Some (Some q) → ¬ alive h q)
     ∧ p = length h ∧ length h' = S (length h)
     ∧ use_count_at h' p = 1 ∧ object_at h' p = Some (mk key)).
Proof.
  intros Hi.
  destruct (intern_cases mk key h pool) as [(p0 & Hk & Ha & Heq)|[Hk Heq]];
    rewrite Heq in Hi; injection Hi as <- <- <-.
  - left. exists p0. by rewrite length_add_ref.
  - right. split_and!; [done | done | | |].
    + rewrite length_app. simpl. lia.
    + by rewrite use_count_at_snoc, decide_True.
    + by rewrite object_at_snoc, decide_True.
Qed.

End Requests.

Lemma render_at_leaf p m o :
  alive (store m) p → object_at (store m) p = Some o → is_leaf o →
  render_at p m =
    Returns match o with
            | ConstantObject value => string_of_int value
            | VariableObject name => name
            | BinaryOpObject _ _ _ => ""%string
            end.
Proof.
  unfold alive, use_count_at, object_at, render_at. intros Ha Ho Hl.
  cbn [print_at]. rewrite bind_run, deref_run. cbn [store set_cout].
  destruct (store m !! p) as [blk|]; [|lia].
  destruct (Nat.eqb_spec (use_count blk) 0) as [Hz|_]; [lia|].
  simpl in Ho. injection Ho as ->. by destruct o.
Qed.

(** The last owner destroys the object. *)
Lemma release_last h p : use_count_at h p = 1 → use_count_at (release p h) p = 0.
Proof.
  unfold release, use_count_at at 1. intros Hp. simpl.
  destruct (h !! p) as [blk|] eqn:E; [|done].
  pose proof (lookup_lt_Some _ _ _ E) as Hlt. rewrite Hp.
  assert (Hz : use_count_at (<[p := ControlBlock 0 (managed blk)]> h) p = 0).
  { by rewrite use_count_at_insert, decide_True. }
  destruct (managed blk) as [v|n|cls l r]; try done.
  pose proof (reset_use_count_le p l
                (reset p r (<[p := ControlBlock 0 (BinaryOpObject cls l r)]> h)) p).
  pose proof (reset_use_count_le p r
                (<[p := ControlBlock 0 (BinaryOpObject cls l r)]> h) p).
  lia.
Qed.

(** The heap only grows, and a destroyed object stays destroyed. *)
Lemma perform_store_mono ord a c c' :
  consistent c → perform ord a c = Some c' →
  length (store (machine c)) ≤ length (store (machine c'))
  ∧ ∀ q, q < length (store (machine c)) →
         use_count_at (store (machine c)) q = 0 →
         use_count_at (store (machine c')) q = 0.
Proof.
  intros Hc. pose proof (λ p, owned_alive c p Hc) as Hown.
  destruct a as [v|name|v|name|cls l r|p|p|vs|p|p]; unfold perform.
  - rewrite getConstant_intern.
    destruct (intern _ v _ _) as [[p h'] pool'] eqn:Hi. intros [= <-]. simpl.
    destruct (intern_store ConstantObject (λ _, I) v _ _ _ _ _
                (cons_const_typed c Hc) Hi) as (_ & _ & Huc & _).
    destruct (intern_allocation ConstantObject v _ _ _ _ _ Hi)
      as [(q & _ & Ha & -> & ->)|(_ & -> & -> & _)].
    + split; [done|]. intros q' _ Hq'. rewrite Huc, Hq'.
      case_decide; [|done]. subst. unfold alive in Ha. lia.
    + split; [lia|]. intros q' Hlt Hq'. rewrite Huc, Hq'.
      case_decide; [lia | done].
  - rewrite getVariable_intern.
    destruct (intern _ name _ _) as [[p h'] pool'] eqn:Hi. intros [= <-]. simpl.
    destruct (intern_store VariableObject (λ _, I) name _ _ _ _ _
                (cons_var_typed c Hc) Hi) as (_ & _ & Huc & _).
    destruct (intern_allocation VariableObject name _ _ _ _ _ Hi)
      as [(q & _ & Ha & -> & ->)|(_ & -> & -> & _)].
    + split; [done|]. intros q' _ Hq'. rewrite Huc, Hq'.
      case_decide; [|done]. subst. unfold alive in Ha. lia.
    + split; [lia|]. intros q' Hlt Hq'. rewrite Huc, Hq'.
      case_decide; [lia | done].
  - unfold make_shared. intros [= <-]. simpl. rewrite length_app. simpl.
    split; [lia|]. intros q Hlt Hq. rewrite use_count_at_snoc.
    case_decide; [lia | done].
  - unfold make_shared. intros [= <-]. simpl. rewrite length_app. simpl.
    split; [lia|]. intros q Hlt Hq. rewrite use_count_at_snoc.
    case_decide; [lia | done].
  - case_decide as Hin; [|done]. destruct Hin as [Hl Hr].
    unfold make_binary, make_shared. intros [= <-]. simpl.
    rewrite length_app, !length_add_ref. simpl. split; [lia|].
    intros q Hlt Hq. rewrite use_count_at_snoc, !length_add_ref.
    case_decide; [lia|]. rewrite !use_count_at_add_ref, length_add_ref.
    apply Hown in Hl, Hr. unfold alive in Hl, Hr.
    repeat case_decide; try done; destruct_and?; subst; lia.
  - case_decide as Hin; [|done]. intros [= <-]. simpl.
    rewrite length_add_ref. split; [done|].
    intros q Hlt Hq. rewrite use_count_at_add_ref.
    apply Hown in Hin. unfold alive in Hin.
    case_decide; try done; destruct_and?; subst; lia.
  - case_decide as Hin; [|done]. intros [= <-]. simpl.
    unfold release. rewrite reset_length. split; [done|].
    intros q Hlt Hq. pose proof (reset_use_count_le (S p) p (store (machine c)) q).
    lia.
  - by intros [= <-].
  - case_decide as Hin; [|done]. rewrite evaluate_at_frame. by intros [= <-].
  - case_decide as Hin; [|done].
    destruct (print_at_only_appends (S p) p (machine c)) as [s ->].
    by intros [= <-].
Qed.

Lemma reachable_start ord : reachable ord start.
Proof. by exists []. Qed.

Lemma run_app ord acts1 acts2 c :
  run ord (acts1 ++ acts2) c =
    match run ord acts1 c with
    | Some c1 => run ord acts2 c1
    | None => None
    end.
Proof.
  revert c. induction acts1 as [|a acts1 IH]; intros c; [done|].
  simpl. destruct (perform ord a c); [apply IH | done].
Qed.

Lemma reachable_run ord acts c c' :
  reachable ord c → run ord acts c = Some c' → reachable ord c'.
Proof.
  intros [acts0 H0] Hrun. exists (acts0 ++ acts). by rewrite run_app, H0.
Qed.

Lemma reachable_after acts :
  is_Some (run left_to_right acts start) → reachable left_to_right (after acts).
Proof. intros [c Hc]. exists acts. unfold after. by rewrite Hc. Qed.

(** C2.  Two requests for the same constant in a row, the first handle
    still held, return the same node; the second allocates nothing; the
    text the node prints is the decimal string of the value: a minus sign
    exactly for a negative value, then the digits of the magnitude without
    a leading zero.  The same holds for two requests for the same variable
    name, whose node prints as the name. *)
Theorem repeated_request_same_node ord c v name :
  reachable ord c →
  (let '(p1, m1) := getConstant v (machine c) in
   let '(p2, m2) := getConstant v m1 in
   p2 = p1 ∧ length (store m2) = length (store m1)
   ∧ ∃ text, render_at p1 m2 = Returns text ∧ decimal_numeral v text)
  ∧ (let '(p1, m1) := getVariable name (machine c) in
     let '(p2, m2) := getVariable name m1 in
     p2 = p1 ∧ length (store m2) = length (store m1)
     ∧ render_at p1 m2 = Returns name).
Proof.
  intros Hc%reachable_consistent. split.
  - rewrite getConstant_intern.
    destruct (intern _ v _ _) as [[p h1] pool1] eqn:Hi.
    rewrite getConstant_intern. cbn [store factory constPool set_constPool set_store].
    destruct (intern_entries_live ConstantObject v _ _ _ _ _ Hi) as (Hk & Ha & _).
    destruct (intern_store ConstantObject (λ _, I) v _ _ _ _ _
                (cons_const_typed c Hc) Hi) as (_ & Ho & _).
    rewrite (intern_hit ConstantObject v h1 pool1 p Hk Ha).
    split_and!; [done | apply length_add_ref |].
    exists (string_of_int v). split; [|apply string_of_int_numeral].
    rewrite (render_at_leaf p _ (ConstantObject v)); [done | | | done].
    + unfold alive in *. cbn [store set_constPool set_store].
      rewrite use_count_at_add_ref. case_decide; lia.
    + cbn [store set_constPool set_store]. by rewrite object_at_add_ref.
  - rewrite getVariable_intern.
    destruct (intern _ name _ _) as [[p h1] pool1] eqn:Hi.
    rewrite getVariable_intern. cbn [store factory varPool set_varPool set_store].
    destruct (intern_entries_live VariableObject name _ _ _ _ _ Hi) as (Hk & Ha & _).
    destruct (intern_store VariableObject (λ _, I) name _ _ _ _ _
                (cons_var_typed c Hc) Hi) as (_ & Ho & _).
    rewrite (intern_hit VariableObject name h1 pool1 p Hk Ha).
    split_and!; [done | apply length_add_ref |].
    rewrite (render_at_leaf p _ (VariableObject name)); [done | | | done].
    + unfold alive in *. cbn [store set_varPool set_store].
      rewrite use_count_at_add_ref. case_decide; lia.
    + cbn [store set_varPool set_store]. by rewrite object_at_add_ref.
Qed.

Lemma repeated_request_same_node_witness :
  (let '(p1, m1) := getConstant (-42) (machine (after [GetConstant 7; Release 0])) in
   let '(p2, m2) := getConstant (-42) m1 in
   p2 = p1 ∧ length (store m2) = length (store m1)
   ∧ ∃ text, render_at p1 m2 = Returns text ∧ decimal_numeral (-42) text)
  ∧ (let '(p1, m1) := getVariable "x" (machine (after [GetConstant 7; Release 0])) in
     let '(p2, m2) := getVariable "x" m1 in
     p2 = p1 ∧ length (store m2) = length (store m1)
     ∧ render_at p1 m2 = Returns "x"%string).
Proof.
  apply (repeated_request_same_node left_to_right
           (after [GetConstant 7; Release 0]) (-42)%Z "x").
  apply reachable_after. vm_compute. by eexists.
Defined.

(** C3.  In every state a client can reach, the use count of a node is the
    number of its owners, the client's handles and the members of live
    binary nodes; pool entries are not among them.  So a node without
    owners is destroyed and an entry for it is stale; releasing the only
    owner destroys the node and leaves the pools as they were; and no two
    live nodes that came out of the factory have the same kind and key. *)
Theorem pool_never_owns ord c :
  reachable ord c →
  (∀ p, use_count_at (store (machine c)) p = owners c p)
  ∧ (∀ p, owners c p = 0 → expired (store (machine c)) (Some p) = true)
  ∧ (∀ p c', owners c p = 1 → perform ord (Release p) c = Some c' →
       expired (store (machine c')) (Some p) = true
       ∧ factory (machine c') = factory (machine c))
  ∧ (∀ p q, p ∈ interned c → q ∈ interned c →
       alive (store (machine c)) p → alive (store (machine c)) q →
       object_at (store (machine c)) p = object_at (store (machine c)) q →
       p = q).
Proof.
  intros Hc%reachable_consistent. split_and!.
  - apply (cons_counts c Hc).
  - intros p Hp. unfold expired. rewrite (cons_counts c Hc), Hp. done.
  - intros p c' Hp. unfold perform. case_decide; [|done]. intros [= <-].
    split; [|done]. cbn [machine store set_store]. unfold expired.
    rewrite release_last; [done|]. by rewrite (cons_counts c Hc).
  - intros p q Hp Hq Hap Haq Heq.
    destruct (cons_interned_leaf c Hc p Hp) as (o & Ho & Hl).
    rewrite Ho in Heq. symmetry in Heq.
    destruct o as [v|name|]; [| |done].
    + pose proof (cons_const_complete c Hc v p Hp Hap Ho) as H1.
      pose proof (cons_const_complete c Hc v q Hq Haq Heq) as H2.
      congruence.
    + pose proof (cons_var_complete c Hc name p Hp Hap Ho) as H1.
      pose proof (cons_var_complete c Hc name q Hq Haq Heq) as H2.
      congruence.
Qed.

Lemma pool_never_owns_witness :
  expired (store (machine (after [GetConstant 7; Release 0]))) (Some 0) = true
  ∧ factory (machine (after [GetConstant 7; Release 0]))
    = factory (machine (after [GetConstant 7])).
Proof.
  assert (Hr : reachable left_to_right (after [GetConstant 7])).
  { apply reachable_after. vm_compute. by eexists. }
  destruct (pool_never_owns left_to_right (after [GetConstant 7]) Hr)
    as (_ & _ & H & _).
  apply (H 0); reflexivity.
Defined.

(** C6.  [prune] keeps an entry exactly when its weak pointer still
    resolves.  When a request returns, every entry of the pool it went
    through resolves to a live node.  A stale weak pointer never resolves,
    and the node a request returns is live and carries the requested
    key. *)
Theorem pools_hold_live_entries ord c :
  reachable ord c →
  (∀ h (pool : gmap Z (option nat)) key wp,
     prune h pool !! key = Some wp ↔ pool !! key = Some wp ∧ expired h wp = false)
  ∧ (∀ h (pool : gmap string (option nat)) key wp,
     prune h pool !! key = Some wp ↔ pool !! key = Some wp ∧ expired h wp = false)
  ∧ (∀ m v key wp,
       constPool (factory (getConstant v m).2) !! key = Some wp →
       ∃ q, wp = Some q ∧ alive (store (getConstant v m).2) q)
  ∧ (∀ m name key wp,
       varPool (factory (getVariable name m).2) !! key = Some wp →
       ∃ q, wp = Some q ∧ alive (store (getVariable name m).2) q)
  ∧ (∀ h wp, expired h wp = true → lock wp h = (None, h))
  ∧ (∀ v, alive (store (getConstant v (machine c)).2) (getConstant v (machine c)).1
          ∧ object_at (store (getConstant v (machine c)).2)
              (getConstant v (machine c)).1 = Some (ConstantObject v))
  ∧ (∀ name,
       alive (store (getVariable name (machine c)).2) (getVariable name (machine c)).1
       ∧ object_at (store (getVariable name (machine c)).2)
           (getVariable name (machine c)).1 = Some (VariableObject name)).
Proof.
  intros Hc%reachable_consistent. split_and!.
  - intros h pool key wp. apply prune_lookup_Some.
  - intros h pool key wp. apply prune_lookup_Some.
  - intros m v key wp. rewrite getConstant_intern.
    destruct (intern _ v _ _) as [[p h1] pool1] eqn:Hi. simpl.
    by apply (intern_entries_live ConstantObject v _ _ _ _ _ Hi).
  - intros m name key wp. rewrite getVariable_intern.
    destruct (intern _ name _ _) as [[p h1] pool1] eqn:Hi. simpl.
    by apply (intern_entries_live VariableObject name _ _ _ _ _ Hi).
  - intros h [p|] He; [|done]. unfold lock. by rewrite He.
  - intros v. rewrite getConstant_intern.
    destruct (intern _ v _ _) as [[p h1] pool1] eqn:Hi. simpl.
    split; [by apply (intern_entries_live ConstantObject v _ _ _ _ _ Hi)|].
    by apply (intern_store ConstantObject (λ _, I) v _ _ _ _ _
                (cons_const_typed c Hc) Hi).
  - intros name. rewrite getVariable_intern.
    destruct (intern _ name _ _) as [[p h1] pool1] eqn:Hi. simpl.
    split; [by apply (intern_entries_live VariableObject name _ _ _ _ _ Hi)|].
    by apply (intern_store VariableObject (λ _, I) name _ _ _ _ _
                (cons_var_typed c Hc) Hi).
Qed.

Lemma pools_hold_live_entries_witness :
  alive (store (getConstant 7 (machine (after [GetConstant 7; Release 0]))).2)
        (getConstant 7 (machine (after [GetConstant 7; Release 0]))).1
  ∧ object_at (store (getConstant 7 (machine (after [GetConstant 7; Release 0]))).2)
      (getConstant 7 (machine (after [GetConstant 7; Release 0]))).1
    = Some (ConstantObject 7).
Proof.
  assert (Hr : reachable left_to_right (after [GetConstant 7; Release 0])).
  { apply reachable_after. vm_compute. by eexists. }
  destruct (pools_hold_live_entries left_to_right _ Hr)
    as (_ & _ & _ & _ & _ & H & _).
  apply (H 7%Z).
Defined.

(** ** A key without a live node *)

Lemma run_store_mono ord acts c c' :
  consistent c → run ord acts c = Some c' →
  length (store (machine c)) ≤ length (store (machine c')).
Proof.
  revert c. induction acts as [|a acts IH]; intros c Hc; simpl.
  - by intros [= <-].
  - destruct (perform ord a c) as [c1|] eqn:Hp; [|done]. intros Hrun.
    destruct (perform_store_mono ord a c c1 Hc Hp) as [Hlen _].
    pose proof (IH c1 (perform_consistent ord a c c1 Hc Hp) Hrun). lia.
Qed.

Lemma perform_keeps_stale_constant ord a c c' v :
  consistent c → a ≠ GetConstant v →
  (∀ q, constPool (factory (machine c)) !! v = Some (Some q) →
        ¬ alive (store (machine c)) q) →
  perform ord a c = Some c' →
  ∀ q, constPool (factory (machine c')) !! v = Some (Some q) →
       ¬ alive (store (machine c')) q.
Proof.
  intros Hc Hne Hstale Hp.
  assert (Hsame : constPool (factory (machine c')) = constPool (factory (machine c)) →
            ∀ q, constPool (factory (machine c')) !! v = Some (Some q) →
                 ¬ alive (store (machine c')) q).
  { intros -> q Hq. pose proof (Hstale q Hq) as Hd.
    pose proof (cons_const_typed c Hc v q Hq) as Ho%object_at_lt.
    destruct (perform_store_mono ord a c c' Hc Hp) as [_ Hdead].
    unfold alive in *. rewrite Hdead; lia. }
  destruct a as [w|name|w|name|cls l r|p|p|vs|p|p]; unfold perform in Hp.
  - assert (w ≠ v) as Hw by congruence.
    rewrite getConstant_intern in Hp.
    destruct (intern _ w _ _) as [[p h'] pool'] eqn:Hi. injection Hp as <-.
    cbn [machine store factory constPool set_constPool set_store].
    intros q Hq. exfalso.
    destruct (intern_cases ConstantObject w (store (machine c))
                (constPool (factory (machine c)))) as [(p0 & _ & _ & Heq)|[_ Heq]];
      rewrite Heq in Hi; injection Hi as <- <- <-.
    + apply prune_lookup_alive in Hq as [Hq Ha]. by apply (Hstale q).
    + rewrite lookup_insert_ne in Hq by done.
      apply prune_lookup_alive in Hq as [Hq Ha]. by apply (Hstale q).
  - apply Hsame. rewrite getVariable_intern in Hp.
    destruct (intern _ name _ _) as [[p h'] pool'] eqn:Hi. by injection Hp as <-.
  - apply Hsame. unfold make_shared in Hp. by injection Hp as <-.
  - apply Hsame. unfold make_shared in Hp. by injection Hp as <-.
  - apply Hsame. case_decide; [|done]. unfold make_binary, make_shared in Hp.
    by injection Hp as <-.
  - apply Hsame. case_decide; [|done]. by injection Hp as <-.
  - apply Hsame. case_decide; [|done]. by injection Hp as <-.
  - apply Hsame. by injection Hp as <-.
  - apply Hsame. case_decide; [|done]. rewrite evaluate_at_frame in Hp.
    by injection Hp as <-.
  - apply Hsame. case_decide; [|done].
    destruct (print_at_only_appends (S p) p (machine c)) as [s Hs].
    rewrite Hs in Hp. by injection Hp as <-.
Qed.

Lemma perform_keeps_stale_variable ord a c c' name :
  consistent c → a ≠ GetVariable name →
  (∀ q, varPool (factory (machine c)) !! name = Some (Some q) →
        ¬ alive (store (machine c)) q) →
  perform ord a c = Some c' →
  ∀ q, varPool (factory (machine c')) !! name = Some (Some q) →
       ¬ alive (store (machine c')) q.
Proof.
  intros Hc Hne Hstale Hp.
  assert (Hsame : varPool (factory (machine c')) = varPool (factory (machine c)) →
            ∀ q, varPool (factory (machine c')) !! name = Some (Some q) →
                 ¬ alive (store (machine c')) q).
  { intros -> q Hq. pose proof (Hstale q Hq) as Hd.
    pose proof (cons_var_typed c Hc name q Hq) as Ho%object_at_lt.
    destruct (perform_store_mono ord a c c' Hc Hp) as [_ Hdead].
    unfold alive in *. rewrite Hdead; lia. }
  destruct a as [w|n|w|n|cls l r|p|p|vs|p|p]; unfold perform in Hp.
  - apply Hsame. rewrite getConstant_intern in Hp.
    destruct (intern _ w _ _) as [[p h'] pool'] eqn:Hi. by injection Hp as <-.
  - assert (n ≠ name) as Hw by congruence.
    rewrite getVariable_intern in Hp.
    destruct (intern _ n _ _) as [[p h'] pool'] eqn:Hi. injection Hp as <-.
    cbn [machine store factory varPool set_varPool set_store].
    intros q Hq. exfalso.
    destruct (intern_cases VariableObject n (store (machine c))
                (varPool (factory (machine c)))) as [(p0 & _ & _ & Heq)|[_ Heq]];
      rewrite Heq in Hi; injection Hi as <- <- <-.
    + apply prune_lookup_alive in Hq as [Hq Ha]. by apply (Hstale q).
    + rewrite lookup_insert_ne in Hq by done.
      apply prune_lookup_alive in Hq as [Hq Ha]. by apply (Hstale q).
  - apply Hsame. unfold make_shared in Hp. by injection Hp as <-.
  - apply Hsame. unfold make_shared in Hp. by injection Hp as <-.
  - apply Hsame. case_decide; [|done]. unfold make_binary, make_shared in Hp.
    by injection Hp as <-.
  - apply Hsame. case_decide; [|done]. by injection Hp as <-.
  - apply Hsame. case_decide; [|done]. by injection Hp as <-.
  - apply Hsame. by injection Hp as <-.
  - apply Hsame. case_decide; [|done]. rewrite evaluate_at_frame in Hp.
    by injection Hp as <-.
  - apply Hsame. case_decide; [|done].
    destruct (print_at_only_appends (S p) p (machine c)) as [s Hs].
    rewrite Hs in Hp. by injection Hp as <-.
Qed.

Lemma run_keeps_stale_constant ord acts c c' v :
  consistent c → GetConstant v ∉ acts →
  (∀ q, constPool (factory (machine c)) !! v = Some (Some q) →
        ¬ alive (store (machine c)) q) →
  run ord acts c = Some c' →
  ∀ q, constPool (factory (machine c')) !! v = Some (Some q) →
       ¬ alive (store (machine c')) q.
Proof.
  revert c. induction acts as [|a acts IH]; intros c Hc Hnot Hstale; simpl.
  - by intros [= <-].
  - destruct (perform ord a c) as [c1|] eqn:Hp; [|done].
    apply not_elem_of_cons in Hnot as [Hne Hnot].
    apply IH; [by eapply perform_consistent | done |].
    by eapply perform_keeps_stale_constant.
Qed.

Lemma run_keeps_stale_variable ord acts c c' name :
  consistent c → GetVariable name ∉ acts →
  (∀ q, varPool (factory (machine c)) !! name = Some (Some q) →
        ¬ alive (store (machine c)) q) →
  run ord acts c = Some c' →
  ∀ q, varPool (factory (machine c')) !! name = Some (Some q) →
       ¬ alive (store (machine c')) q.
Proof.
  revert c. induction acts as [|a acts IH]; intros c Hc Hnot Hstale; simpl.
  - by intros [= <-].
  - destruct (perform ord a c) as [c1|] eqn:Hp; [|done].
    apply not_elem_of_cons in Hnot as [Hne Hnot].
    apply IH; [by eapply perform_consistent | done |].
    by eapply perform_keeps_stale_variable.
Qed.

(** C5.  Once a pooled node has lost its last owner, whether that owner
    was a handle of the client or a member of a tree, its pool entry is
    stale; and the next request for its key, whatever the client does in
    between short of requesting that key, builds a new node: a fresh
    block, distinct from the old one, with one owner, carrying the key,
    and the key's pool entry observes it in place of the stale one. *)
Theorem released_node_is_replaced ord c p acts c2 :
  reachable ord c → owners c p = 0 →
  run ord acts c = Some c2 →
  expired (store (machine c)) (Some p) = true
  ∧ (∀ v, constPool (factory (machine c)) !! v = Some (Some p) →
        GetConstant v ∉ acts →
        let '(p', m') := getConstant v (machine c2) in
        p' = length (store (machine c2)) ∧ p' ≠ p
        ∧ use_count_at (store m') p' = 1
        ∧ object_at (store m') p' = Some (ConstantObject v)
        ∧ constPool (factory m') !! v = Some (Some p'))
  ∧ (∀ name, varPool (factory (machine c)) !! name = Some (Some p) →
        GetVariable name ∉ acts →
        let '(p', m') := getVariable name (machine c2) in
        p' = length (store (machine c2)) ∧ p' ≠ p
        ∧ use_count_at (store m') p' = 1
        ∧ object_at (store m') p' = Some (VariableObject name)
        ∧ varPool (factory m') !! name = Some (Some p')).
Proof.
  intros Hc%reachable_consistent Hown Hrun.
  pose proof (run_store_mono ord acts c c2 Hc Hrun) as Hlen2.
  assert (Hdead : ¬ alive (store (machine c)) p).
  { unfold alive. rewrite (cons_counts c Hc), Hown. lia. }
  split_and!.
  - unfold expired. by rewrite (cons_counts c Hc), Hown.
  - intros v Hv Hnot.
    pose proof (cons_const_typed c Hc v p Hv) as Hlt%object_at_lt.
    assert (Hstale : ∀ q, constPool (factory (machine c2)) !! v = Some (Some q) →
                          ¬ alive (store (machine c2)) q).
    { apply (run_keeps_stale_constant ord acts c c2 v Hc Hnot); [|done].
      intros q Hq. rewrite Hv in Hq. by injection Hq as <-. }
    rewrite getConstant_intern.
    rewrite (intern_miss ConstantObject v _ _ Hstale).
    cbn [store factory constPool set_constPool set_store].
    split_and!; [done | lia | | |].
    + by rewrite use_count_at_snoc, decide_True.
    + by rewrite object_at_snoc, decide_True.
    + by rewrite lookup_insert_eq.
  - intros name Hv Hnot.
    pose proof (cons_var_typed c Hc name p Hv) as Hlt%object_at_lt.
    assert (Hstale : ∀ q, varPool (factory (machine c2)) !! name = Some (Some q) →
                          ¬ alive (store (machine c2)) q).
    { apply (run_keeps_stale_variable ord acts c c2 name Hc Hnot); [|done].
      intros q Hq. rewrite Hv in Hq. by injection Hq as <-. }
    rewrite getVariable_intern.
    rewrite (intern_miss VariableObject name _ _ Hstale).
    cbn [store factory varPool set_varPool set_store].
    split_and!; [done | lia | | |].
    + by rewrite use_count_at_snoc, decide_True.
    + by rewrite object_at_snoc, decide_True.
    + by rewrite lookup_insert_eq.
Qed.

(** The leaf [2] of [main]'s expression is owned by the [Add] node alone
    once the temporaries are gone; it dies with the tree, and the next
    request for [2] builds block 7. *)
Lemma released_node_is_replaced_witness :
  owners (after main_block) 0 = 1
  ∧ 0 ∉ owned (after main_block)
  ∧ expired (store (machine (after (main_block ++ [Release 2; Release 4]))))
      (Some 0) = true
  ∧ let '(p', m') := getConstant 2
          (machine (after (main_block ++ [Release 2; Release 4]
                           ++ [GetConstant 3; GetVariable "xx"]))) in
    p' = 7 ∧ p' ≠ 0
    ∧ use_count_at (store m') p' = 1
    ∧ object_at (store m') p' = Some (ConstantObject 2)
    ∧ constPool (factory m') !! 2%Z = Some (Some p').
Proof.
  assert (Hr : reachable left_to_right
                 (after (main_block ++ [Release 2; Release 4]))).
  { apply reachable_after. vm_compute. by eexists. }
  destruct (released_node_is_replaced left_to_right
              (after (main_block ++ [Release 2; Release 4])) 0
              [GetConstant 3; GetVariable "xx"]
              (after (main_block ++ [Release 2; Release 4]
                      ++ [GetConstant 3; GetVariable "xx"]))
              Hr eq_refl eq_refl) as (He & H & _).
  split_and!; [reflexivity | | exact He |].
  - assert (Ho : owned (after main_block) = [4; 2]) by reflexivity.
    rewrite Ho, !elem_of_cons, elem_of_nil. intros [|[|]]; done.
  - apply (H 2%Z); [reflexivity|].
    rewrite !elem_of_cons, elem_of_nil. intros [|[|]]; done.
Defined.

(* ################################################################# *)
(** * Further properties of the code *)

(** ** Evaluation *)

Lemma evaluate_returns_inv ord cls l r vars v :
  evaluate ord (BinaryOp cls l r) vars = Returns v →
  ∃ a b, evaluate ord l vars = Returns a ∧ evaluate ord r vars = Returns b
         ∧ (cls = IntegerDivide → b ≠ 0%Z) ∧ arith cls a b = Returns v.
Proof.
  intros Hv.
  destruct (evaluate ord l vars) as [a| |] eqn:Hl;
    destruct (evaluate ord r vars) as [b| |] eqn:Hr;
    try (exfalso; revert Hv; destruct cls; simpl; rewrite ?Hl, ?Hr;
         try (destruct (ord _)); simpl; try done;
         by destruct (b =? 0)%Z).
  exists a, b. rewrite (evaluate_both_return ord cls l r vars a b Hl Hr) in Hv.
  case_decide as Hz; [done|]. split_and!; [done | done | naive_solver | done].
Qed.

(** X1.  The value of an expression does not depend on the order in which
    the compiler evaluates the operands of [+], [-] and [*]: if the call
    returns under one order, it returns the same value under any other. *)
Theorem evaluate_value_order_independent ord ord' e vars v :
  evaluate ord e vars = Returns v → evaluate ord' e vars = Returns v.
Proof.
  revert v. induction e as [c|n|cls l IHl r IHr]; intros v Hv; [done..|].
  destruct (evaluate_returns_inv ord cls l r vars v Hv) as (a & b & Hl & Hr & Hnz & Ha).
  rewrite (evaluate_both_return ord' cls l r vars a b (IHl a Hl) (IHr b Hr)).
  by rewrite decide_False by naive_solver.
Qed.

Lemma evaluate_value_order_independent_witness :
  evaluate right_to_left sample {[ "x"%string := 3%Z ]} = Returns 25%Z.
Proof.
  apply (evaluate_value_order_independent left_to_right right_to_left).
  reflexivity.
Defined.

(** X2.  [evaluate] consults the context only at the names of the
    [Variable] nodes of the expression: two contexts that agree on those
    names give the same outcome, value or failure. *)
Theorem evaluate_agrees_on_variables ord e vars vars' :
  (∀ name, name ∈ variables e → vars !! name = vars' !! name) →
  evaluate ord e vars = evaluate ord e vars'.
Proof.
  induction e as [c|n|cls l IHl r IHr]; intros Hag.
  - done.
  - rewrite !evaluate_Variable, (Hag n); [done|]. simpl. apply elem_of_cons. by left.
  - assert (Hl : evaluate ord l vars = evaluate ord l vars').
    { apply IHl. intros name Hin. apply Hag. simpl. apply elem_of_app. by left. }
    assert (Hr : evaluate ord r vars = evaluate ord r vars').
    { apply IHr. intros name Hin. apply Hag. simpl. apply elem_of_app. by right. }
    destruct cls; simpl; by rewrite Hl, Hr.
Qed.

Lemma evaluate_agrees_on_variables_witness :
  evaluate left_to_right sample {[ "x"%string := 3%Z ]}
  = evaluate left_to_right sample (<["y"%string := 9%Z]> {[ "x"%string := 3%Z ]}).
Proof.
  apply evaluate_agrees_on_variables. intros name Hin. simpl in Hin.
  apply list_elem_of_singleton in Hin as ->. reflexivity.
Defined.

(** X4.  The two failures of [evaluate] are both [std::logic_error];
    what [what()] returns tells them apart, and for a variable whose name
    holds no NUL character it determines the name.  A NUL in the name cuts
    the message short, so two such names can share a message. *)
Theorem what_tells_errors_apart :
  (∀ a, what (UndefinedVariable a) ≠ what DivisionByZero)
  ∧ (∀ a b, nul_free a = true → nul_free b = true → a ≠ b →
            what (UndefinedVariable a) ≠ what (UndefinedVariable b))
  ∧ what (UndefinedVariable (String "a" (String "000" "b")))
    = what (UndefinedVariable (String "a" (String "000" "c"))).
Proof.
  split_and!.
  - intros a. unfold UndefinedVariable, DivisionByZero, what.
    rewrite app_cons. simpl. discriminate.
  - intros a b Ha Hb Hne. unfold UndefinedVariable, what.
    rewrite !c_str_nul_free by (by rewrite !nul_free_app, ?Ha, ?Hb).
    intros Heq. apply Hne. apply String.app_inj in Heq. by apply app_inj_r in Heq.
  - reflexivity.
Qed.

Lemma what_tells_errors_apart_witness :
  what (UndefinedVariable "undef") ≠ what (UndefinedVariable "under").
Proof.
  destruct what_tells_errors_apart as (_ & H & _).
  apply (H "undef"%string "under"%string); [reflexivity | reflexivity | discriminate].
Defined.

(** ** The pools and the heap *)

(** X6.  [prune] only removes entries, removes nothing when every entry
    resolves, and a second [prune] on the same heap removes nothing
    more. *)
Theorem prune_idempotent `{Countable K} (h : list control_block)
    (pool : gmap K (option nat)) :
  prune h pool ⊆ pool
  ∧ prune h (prune h pool) = prune h pool
  ∧ ((∀ key wp, pool !! key = Some wp → expired h wp = false) →
     prune h pool = pool).
Proof.
  split_and!.
  - apply map_filter_subseteq.
  - apply map_eq. intros key.
    destruct (prune h pool !! key) as [wp|] eqn:E.
    + apply prune_lookup_Some. split; [done|].
      by apply prune_lookup_Some in E as [_ ?].
    + apply prune_lookup_None. by left.
  - intros Hall. apply map_eq. intros key.
    destruct (pool !! key) as [wp|] eqn:E.
    + apply prune_lookup_Some. split; [done|]. by eapply Hall.
    + apply prune_lookup_None. by left.
Qed.

Lemma prune_idempotent_witness :
  prune [ControlBlock 1 (ConstantObject 5)]
        (<[5%Z := Some 0]> (∅ : gmap Z (option nat)))
  = <[5%Z := Some 0]> (∅ : gmap Z (option nat)).
Proof.
  apply prune_idempotent. intros key wp Hk.
  apply lookup_insert_Some in Hk as [[_ <-]|[_ Hk]]; [reflexivity|].
  by rewrite lookup_empty in Hk.
Defined.

(** X7.  A request adds one owner to the node it returns and touches no
    other count and no existing object; it leaves the other pool, the
    context and the stream alone, and it adds no entry to its own pool
    other than the one for the requested key. *)
Theorem request_footprint ord c v name :
  reachable ord c →
  (let '(p, m') := getConstant v (machine c) in
   (∀ q, use_count_at (store m') q
         = use_count_at (store (machine c)) q + if decide (q = p) then 1 else 0)
   ∧ (∀ q, q < length (store (machine c)) →
           object_at (store m') q = object_at (store (machine c)) q)
   ∧ varPool (factory m') = varPool (factory (machine c))
   ∧ vars m' = vars (machine c) ∧ cout m' = cout (machine c)
   ∧ (∀ key wp, key ≠ v → constPool (factory m') !! key = Some wp →
                constPool (factory (machine c)) !! key = Some wp))
  ∧ (let '(p, m') := getVariable name (machine c) in
     (∀ q, use_count_at (store m') q
           = use_count_at (store (machine c)) q + if decide (q = p) then 1 else 0)
     ∧ (∀ q, q < length (store (machine c)) →
             object_at (store m') q = object_at (store (machine c)) q)
     ∧ constPool (factory m') = constPool (factory (machine c))
     ∧ vars m' = vars (machine c) ∧ cout m' = cout (machine c)
     ∧ (∀ key wp, key ≠ name → varPool (factory m') !! key = Some wp →
                  varPool (factory (machine c)) !! key = Some wp)).
Proof.
  intros Hc%reachable_consistent. split.
  - rewrite getConstant_intern.
    destruct (intern _ v _ _) as [[p h'] pool'] eqn:Hi.
    destruct (intern_store ConstantObject (λ _, I) v _ _ _ _ _
                (cons_const_typed c Hc) Hi) as (Hobj & _ & Huc & _).
    split_and!; try done.
    intros key wp Hne. cbn [factory constPool set_constPool].
    destruct (intern_cases ConstantObject v (store (machine c))
                (constPool (factory (machine c)))) as [(p0 & _ & _ & Heq)|[_ Heq]];
      rewrite Heq in Hi; injection Hi as <- <- <-.
    + by intros [? _]%prune_lookup_Some.
    + rewrite lookup_insert_ne by done. by intros [? _]%prune_lookup_Some.
  - rewrite getVariable_intern.
    destruct (intern _ name _ _) as [[p h'] pool'] eqn:Hi.
    destruct (intern_store VariableObject (λ _, I) name _ _ _ _ _
                (cons_var_typed c Hc) Hi) as (Hobj & _ & Huc & _).
    split_and!; try done.
    intros key wp Hne. cbn [factory varPool set_varPool].
    destruct (intern_cases VariableObject name (store (machine c))
                (varPool (factory (machine c)))) as [(p0 & _ & _ & Heq)|[_ Heq]];
      rewrite Heq in Hi; injection Hi as <- <- <-.
    + by intros [? _]%prune_lookup_Some.
    + rewrite lookup_insert_ne by done. by intros [? _]%prune_lookup_Some.
Qed.

Lemma request_footprint_witness :
  let '(p, m') := getConstant 7 (machine (after [GetConstant 7])) in
  use_count_at (store m') p
  = use_count_at (store (machine (after [GetConstant 7]))) p + 1.
Proof.
  assert (Hr : reachable left_to_right (after [GetConstant 7])).
  { apply reachable_after. vm_compute. by eexists. }
  destruct (request_footprint left_to_right _ 7%Z "x" Hr) as [H _].
  destruct (getConstant 7 (machine (after [GetConstant 7]))) as [p m'].
  destruct H as (H & _). rewrite (H p). by rewrite decide_True.
Defined.

(** X8.  No node is registered under two keys, and no node is in both
    pools; so requests for two different constants, or for a constant and
    a variable, never return the same node. *)
Theorem distinct_keys_distinct_nodes ord c :
  reachable ord c →
  (∀ v w p, constPool (factory (machine c)) !! v = Some (Some p) →
            constPool (factory (machine c)) !! w = Some (Some p) → v = w)
  ∧ (∀ a b p, varPool (factory (machine c)) !! a = Some (Some p) →
              varPool (factory (machine c)) !! b = Some (Some p) → a = b)
  ∧ (∀ v a p, constPool (factory (machine c)) !! v = Some (Some p) →
              varPool (factory (machine c)) !! a = Some (Some p) → False)
  ∧ (∀ v w, v ≠ w →
       let '(p1, m1) := getConstant v (machine c) in
       (getConstant w m1).1 ≠ p1)
  ∧ (∀ v a,
       let '(p1, m1) := getConstant v (machine c) in
       (getVariable a m1).1 ≠ p1).
Proof.
  intros Hc%reachable_consistent.
  pose proof (cons_const_typed c Hc) as Hct.
  pose proof (cons_var_typed c Hc) as Hvt.
  split_and!.
  - intros v w p Hv Hw. apply Hct in Hv, Hw. congruence.
  - intros a b p Ha Hb. apply Hvt in Ha, Hb. congruence.
  - intros v a p Hv Ha. apply Hct in Hv. apply Hvt in Ha. congruence.
  - intros v w Hne. destruct (getConstant v (machine c)) as [p1 m1] eqn:E1.
    pose proof (getConstant_consistent c v p1 m1 Hc E1) as Hc1.
    set (c1 := Cl m1 (p1 :: owned c) (p1 :: interned c)) in *.
    rewrite getConstant_intern in E1.
    destruct (intern _ v _ _) as [[p h1] pool1] eqn:Hi1. injection E1 as -> <-.
    destruct (intern_store ConstantObject (λ _, I) v _ _ _ _ _ Hct Hi1)
      as (_ & Ho1 & _).
    rewrite getConstant_intern. cbn [store factory constPool set_constPool set_store].
    destruct (intern _ w h1 pool1) as [[p2 h2] pool2] eqn:Hi2. simpl.
    destruct (intern_store ConstantObject (λ _, I) w _ _ _ _ _
                (cons_const_typed c1 Hc1) Hi2) as (Hobj & Ho2 & _).
    intros ->. rewrite Hobj in Ho2 by (by eapply object_at_lt).
    simpl in Ho2. congruence.
  - intros v a. destruct (getConstant v (machine c)) as [p1 m1] eqn:E1.
    pose proof (getConstant_consistent c v p1 m1 Hc E1) as Hc1.
    set (c1 := Cl m1 (p1 :: owned c) (p1 :: interned c)) in *.
    rewrite getConstant_intern in E1.
    destruct (intern _ v _ _) as [[p h1] pool1] eqn:Hi1. injection E1 as -> <-.
    destruct (intern_store ConstantObject (λ _, I) v _ _ _ _ _ Hct Hi1)
      as (_ & Ho1 & _).
    rewrite getVariable_intern. cbn [store factory varPool set_constPool set_store].
    destruct (intern _ a h1 _) as [[p2 h2] pool2] eqn:Hi2. simpl.
    destruct (intern_store VariableObject (λ _, I) a _ _ _ _ _
                (cons_var_typed c1 Hc1) Hi2) as (Hobj & Ho2 & _).
    intros ->. rewrite Hobj in Ho2 by (by eapply object_at_lt).
    simpl in Ho2. congruence.
Qed.

Lemma distinct_keys_distinct_nodes_witness :
  let '(p1, m1) := getConstant 2 (machine start) in (getConstant 5 m1).1 ≠ p1.
Proof.
  destruct (distinct_keys_distinct_nodes left_to_right start
              (reachable_start left_to_right)) as (_ & _ & _ & H & _).
  apply (H 2%Z 5%Z). discriminate.
Defined.

(** ** Ownership through the tree *)

Lemma refs_in_pos (h : list control_block) p :
  0 < refs_in h p →
  ∃ q blk, h !! q = Some blk ∧ 0 < refs_from blk p.
Proof.
  unfold refs_in. induction h as [|b h IH]; simpl; [lia|]. intros Hpos.
  destruct (decide (0 < refs_from b p)) as [Hb|Hb].
  - by exists 0, b.
  - destruct IH as (q & blk & Hq & Hblk); [lia|]. by exists (S q), blk.
Qed.

Lemma refs_from_pos blk p :
  0 < refs_from blk p →
  use_count blk ≠ 0
  ∧ ∃ cls l r, managed blk = BinaryOpObject cls l r ∧ (l = p ∨ r = p).
Proof.
  unfold refs_from. destruct (Nat.eqb_spec (use_count blk) 0) as [|Hlive]; [lia|].
  destruct (managed blk) as [v|name|cls l r]; [lia..|].
  intros Hpos. split; [done|]. exists cls, l, r. split; [done|].
  repeat case_decide; auto; lia.
Qed.

Lemma refs_from_le_refs_in (h : list control_block) q blk p :
  h !! q = Some blk → refs_from blk p ≤ refs_in h p.
Proof.
  intros Hq. unfold refs_in.
  apply (sum_list_with_in blk (λ b, refs_from b p)).
  by eapply list_elem_of_lookup_2.
Qed.

(** The children of a live binary node are alive. *)
Lemma live_children c q blk cls l r :
  consistent c →
  store (machine c) !! q = Some blk → use_count blk ≠ 0 →
  managed blk = BinaryOpObject cls l r →
  alive (store (machine c)) l ∧ alive (store (machine c)) r.
Proof.
  intros Hc Hq Hlive Hm. unfold alive. rewrite !(cons_counts c Hc). unfold owners.
  pose proof (refs_from_le_refs_in _ q blk l Hq) as Hl.
  pose proof (refs_from_le_refs_in _ q blk r Hq) as Hr.
  unfold refs_from in Hl, Hr. rewrite Hm in Hl, Hr.
  destruct (Nat.eqb_spec (use_count blk) 0); [done|].
  rewrite decide_True in Hl by done.
  rewrite (decide_True (P := r = r)) in Hr by done. lia.
Qed.

Lemma live_view c p :
  consistent c → alive (store (machine c)) p →
  ∃ e, view (S p) (store (machine c)) p = Some e.
Proof.
  intros Hc. induction p as [p IH] using lt_wf_ind. intros Ha.
  unfold alive, use_count_at in Ha. simpl.
  destruct (store (machine c) !! p) as [blk|] eqn:E; [|lia].
  destruct (Nat.eqb_spec (use_count blk) 0) as [|Hlive]; [lia|].
  destruct (managed blk) as [v|n|cls l r] eqn:Hm; [by eexists..|].
  destruct (cons_children c Hc p blk cls l r E Hm) as [Hl Hr].
  destruct (live_children c p blk cls l r Hc E Hlive Hm) as [Hal Har].
  destruct (IH l Hl Hal) as [el Hel]. destruct (IH r Hr Har) as [er Her].
  rewrite (view_le (S l) p _ l el), (view_le (S r) p _ r er) by (done || lia).
  by eexists.
Qed.

(** X9.  Nothing leaks: in a state where the client holds no handle, every
    node is destroyed, whatever the pools still list. *)
Theorem no_owner_no_node ord c :
  reachable ord c → owned c = [] →
  ∀ p, use_count_at (store (machine c)) p = 0.
Proof.
  intros Hc%reachable_consistent Hown.
  assert (Hind : ∀ n p, length (store (machine c)) - p ≤ n →
                        use_count_at (store (machine c)) p = 0).
  { induction n as [|n IH]; intros p Hn.
    - apply use_count_at_ge. lia.
    - destruct (decide (0 < use_count_at (store (machine c)) p)) as [Hpos|]; [|lia].
      exfalso. pose proof (use_count_at_lt _ _ Hpos) as Hlt.
      rewrite (cons_counts c Hc) in Hpos. unfold owners in Hpos.
      rewrite Hown in Hpos. simpl in Hpos.
      destruct (refs_in_pos _ p Hpos) as (q & blk & Hq & Hblk).
      destruct (refs_from_pos blk p Hblk) as (Hlive & cls & l & r & Hm & Hchild).
      destruct (cons_children c Hc q blk cls l r Hq Hm) as [Hl Hr].
      assert (p < q) as Hpq by (destruct Hchild; lia).
      pose proof (lookup_lt_Some _ _ _ Hq) as Hqlt.
      specialize (IH q). unfold use_count_at in IH. rewrite Hq in IH.
      apply Hlive, IH. lia. }
  intros p. by apply (Hind (length (store (machine c)))), Nat.le_sub_l.
Qed.

Lemma no_owner_no_node_witness :
  use_count_at
    (store (machine (after (main_block ++ [Release 2; Release 4])))) 0 = 0.
Proof.
  apply (no_owner_no_node left_to_right).
  - apply reachable_after. vm_compute. by eexists.
  - reflexivity.
Defined.

(** X10.  A handle the client holds never dangles: it stands for a whole
    expression tree, [S p] steps of fuel are enough to walk it, and
    [evaluate] and [print] through the handle do what they do on that
    tree. *)
Theorem held_handle_has_tree ord c p :
  reachable ord c → p ∈ owned c →
  ∃ e, view (S p) (store (machine c)) p = Some e
       ∧ evaluate_at ord (S p) p (machine c)
         = (evaluate ord e (vars (machine c)), machine c)
       ∧ print_at (S p) p (machine c)
         = (Returns (), set_cout (cout (machine c) +:+ render e) (machine c)).
Proof.
  intros Hc%reachable_consistent Hin.
  destruct (live_view c p Hc (owned_alive c p Hc Hin)) as [e He].
  exists e. split_and!; [done | by apply evaluate_at_view |].
  rewrite <- print_app. by apply print_at_view.
Qed.

Lemma held_handle_has_tree_witness :
  ∃ e, view 5 (store (machine (after main_block))) 4 = Some e
       ∧ evaluate_at left_to_right 5 4 (machine (after main_block))
         = (evaluate left_to_right e (vars (machine (after main_block))),
            machine (after main_block))
       ∧ print_at 5 4 (machine (after main_block))
         = (Returns (),
            set_cout (cout (machine (after main_block)) +:+ render e)
              (machine (after main_block))).
Proof.
  apply (held_handle_has_tree left_to_right (after main_block) 4).
  - apply reachable_after. vm_compute. by eexists.
  - vm_compute. apply elem_of_cons. by left.
Defined.

(** ** Nodes the client builds itself *)

Lemma perform_pools_interned ord a c c' :
  ((∀ v p, constPool (factory (machine c)) !! v = Some (Some p) → p ∈ interned c)
   ∧ (∀ n p, varPool (factory (machine c)) !! n = Some (Some p) → p ∈ interned c)) →
  perform ord a c = Some c' →
  (∀ v p, constPool (factory (machine c')) !! v = Some (Some p) → p ∈ interned c')
  ∧ (∀ n p, varPool (factory (machine c')) !! n = Some (Some p) → p ∈ interned c').
Proof.
  intros [Hcp Hvp].
  assert (Hsame : factory (machine c') = factory (machine c) →
                  interned c' = interned c →
            (∀ v p, constPool (factory (machine c')) !! v = Some (Some p) → p ∈ interned c')
            ∧ (∀ n p, varPool (factory (machine c')) !! n = Some (Some p) → p ∈ interned c')).
  { by intros -> ->. }
  destruct a as [w|name|w|name|cls l r|p|p|vs|p|p]; unfold perform.
  - rewrite getConstant_intern.
    destruct (intern _ w _ _) as [[p h'] pool'] eqn:Hi. intros [= <-].
    cbn [machine interned factory constPool varPool set_constPool set_store].
    split; [|intros n q Hq; apply elem_of_cons; right; by eapply Hvp].
    intros v q Hq. apply elem_of_cons.
    destruct (intern_cases ConstantObject w (store (machine c))
                (constPool (factory (machine c)))) as [(p0 & _ & _ & Heq)|[_ Heq]];
      rewrite Heq in Hi; injection Hi as <- <- <-.
    + apply prune_lookup_alive in Hq as [Hq _]. right. by eapply Hcp.
    + destruct (decide (v = w)) as [->|Hne].
      * rewrite lookup_insert_eq in Hq. injection Hq as <-. by left.
      * rewrite lookup_insert_ne in Hq by done.
        apply prune_lookup_alive in Hq as [Hq _]. right. by eapply Hcp.
  - rewrite getVariable_intern.
    destruct (intern _ name _ _) as [[p h'] pool'] eqn:Hi. intros [= <-].
    cbn [machine interned factory constPool varPool set_varPool set_store].
    split; [intros n q Hq; apply elem_of_cons; right; by eapply Hcp|].
    intros v q Hq. apply elem_of_cons.
    destruct (intern_cases VariableObject name (store (machine c))
                (varPool (factory (machine c)))) as [(p0 & _ & _ & Heq)|[_ Heq]];
      rewrite Heq in Hi; injection Hi as <- <- <-.
    + apply prune_lookup_alive in Hq as [Hq _]. right. by eapply Hvp.
    + destruct (decide (v = name)) as [->|Hne].
      * rewrite lookup_insert_eq in Hq. injection Hq as <-. by left.
      * rewrite lookup_insert_ne in Hq by done.
        apply prune_lookup_alive in Hq as [Hq _]. right. by eapply Hvp.
  - unfold make_shared. intros [= <-]. by apply Hsame.
  - unfold make_shared. intros [= <-]. by apply Hsame.
  - case_decide; [|done]. unfold make_binary, make_shared. intros [= <-].
    by apply Hsame.
  - case_decide; [|done]. intros [= <-]. by apply Hsame.
  - case_decide; [|done]. intros [= <-]. by apply Hsame.
  - intros [= <-]. by apply Hsame.
  - case_decide; [|done]. rewrite evaluate_at_frame. intros [= <-]. by apply Hsame.
  - case_decide; [|done].
    destruct (print_at_only_appends (S p) p (machine c)) as [s ->].
    intros [= <-]. by apply Hsame.
Qed.

Lemma reachable_pools_interned ord c :
  reachable ord c →
  (∀ v p, constPool (factory (machine c)) !! v = Some (Some p) → p ∈ interned c)
  ∧ (∀ n p, varPool (factory (machine c)) !! n = Some (Some p) → p ∈ interned c).
Proof.
  intros [acts Hrun]. revert Hrun.
  assert (Hstart : (∀ v p, constPool (factory (machine start)) !! v = Some (Some p)
                           → p ∈ interned start)
                   ∧ (∀ n p, varPool (factory (machine start)) !! n = Some (Some p)
                             → p ∈ interned start)) by (by split).
  revert Hstart. generalize start. induction acts as [|a acts IH]; intros c0 H0; simpl.
  - by intros [= <-].
  - destruct (perform ord a c0) as [c1|] eqn:Hp; [|done].
    apply IH. by eapply perform_pools_interned.
Qed.

(** X11.  A request returns a node the factory built earlier or a node it
    builds now; a leaf the client made with [make_shared] on its own is
    never handed out, whatever its value or name. *)
Theorem request_returns_factory_node ord c v name :
  reachable ord c →
  ((getConstant v (machine c)).1 ∈ interned c
   ∨ (getConstant v (machine c)).1 = length (store (machine c)))
  ∧ ((getVariable name (machine c)).1 ∈ interned c
     ∨ (getVariable name (machine c)).1 = length (store (machine c)))
  ∧ ∀ c', perform ord (NewConstant v) c = Some c' →
          (getConstant v (machine c')).1 ≠ length (store (machine c)).
Proof.
  intros Hr. destruct (reachable_pools_interned ord c Hr) as [Hcp Hvp].
  assert (Hconst : ∀ c0, reachable ord c0 →
            (getConstant v (machine c0)).1 ∈ interned c0
            ∨ (getConstant v (machine c0)).1 = length (store (machine c0))).
  { intros c0 Hr0. destruct (reachable_pools_interned ord c0 Hr0) as [Hcp0 _].
    rewrite getConstant_intern.
    destruct (intern _ v _ _) as [[p h'] pool'] eqn:Hi. simpl.
    destruct (intern_allocation ConstantObject v _ _ _ _ _ Hi)
      as [(q & Hq & _ & -> & _)|(_ & -> & _)]; [left; by eapply Hcp0 | by right]. }
  split_and!.
  - by apply Hconst.
  - rewrite getVariable_intern.
    destruct (intern _ name _ _) as [[p h'] pool'] eqn:Hi. simpl.
    destruct (intern_allocation VariableObject name _ _ _ _ _ Hi)
      as [(q & Hq & _ & -> & _)|(_ & -> & _)]; [left; by eapply Hvp | by right].
  - intros c' Hp.
    assert (Hr' : reachable ord c').
    { apply (reachable_run ord [NewConstant v] c c' Hr). cbn [run]. by rewrite Hp. }
    pose proof (reachable_consistent ord c Hr) as Hc.
    revert Hp. unfold perform, make_shared. intros [= <-].
    destruct (Hconst _ Hr') as [Hin|Heq].
    + cbn [interned] in Hin. intros Heq. rewrite Heq in Hin.
      apply (interned_lt c _ Hc) in Hin. lia.
    + rewrite Heq. cbn [machine store set_store]. rewrite length_app. simpl. lia.
Qed.

Lemma request_returns_factory_node_witness :
  (getConstant 7 (machine (after [NewConstant 7]))).1 ≠ 0.
Proof.
  destruct (request_returns_factory_node left_to_right start 7%Z "x"
              (reachable_start left_to_right)) as (_ & _ & H).
  apply (H (after [NewConstant 7])). reflexivity.
Defined.

(** ** Shape of the heap *)

(** X12.  The children of a live binary node are alive and were built
    before it: no member pointer dangles and the nodes form no cycle. *)
Theorem live_node_has_live_children ord c q blk cls l r :
  reachable ord c →
  store (machine c) !! q = Some blk → use_count blk ≠ 0 →
  managed blk = BinaryOpObject cls l r →
  alive (store (machine c)) l ∧ alive (store (machine c)) r ∧ l < q ∧ r < q.
Proof.
  intros Hc%reachable_consistent Hq Hlive Hm.
  destruct (live_children c q blk cls l r Hc Hq Hlive Hm) as [Hl Hr].
  destruct (cons_children c Hc q blk cls l r Hq Hm) as [Hlq Hrq].
  done.
Qed.

Lemma live_node_has_live_children_witness :
  alive (store (machine (after main_block))) 0
  ∧ alive (store (machine (after main_block))) 1 ∧ 0 < 2 ∧ 1 < 2.
Proof.
  apply (live_node_has_live_children left_to_right (after main_block) 2
           (ControlBlock 2 (BinaryOpObject Add 0 1)) Add 0 1).
  - apply reachable_after. vm_compute. by eexists.
  - reflexivity.
  - discriminate.
  - reflexivity.
Defined.

(** X13.  The chain of destructions that the release of a handle starts
    ends: on a heap where children precede their parents it is over within
    [S p] steps, and more fuel changes nothing. *)
Theorem release_fuel_enough (h : list control_block) p fuel :
  children_before h → p < fuel → reset fuel p h = release p h.
Proof.
  unfold release.
  assert (Hgen : ∀ f f' q (h0 : list control_block),
            children_before h0 → q < f → q < f' → reset f q h0 = reset f' q h0).
  { induction f as [|f IH]; intros f' q h0 Hch Hf Hf'; [lia|].
    destruct f' as [|f']; [lia|]. simpl.
    destruct (h0 !! q) as [blk|] eqn:E; [|done].
    destruct (use_count blk) as [|[|n]]; [done| |done].
    destruct (managed blk) as [v|name|cls l r] eqn:Hm; [done..|].
    destruct (Hch q blk cls l r E Hm) as [Hl Hr].
    set (h1 := <[q := ControlBlock 0 (BinaryOpObject cls l r)]> h0).
    assert (Hch1 : children_before h1).
    { apply (children_before_same_objects h0); [|done].
      intros i. unfold h1, object_at. destruct (decide (i = q)) as [->|Hne].
      - rewrite list_lookup_insert_eq by (by eapply lookup_lt_Some).
        rewrite E. simpl. by rewrite Hm.
      - by rewrite list_lookup_insert_ne. }
    rewrite (IH f' r h1) by (done || lia).
    apply IH; [|lia..].
    apply (children_before_same_objects h1); [|done].
    intros i. apply reset_objects. }
  intros Hch Hf. apply Hgen; [done | done | lia].
Qed.

Lemma release_fuel_enough_witness :
  reset 100 2 [ControlBlock 1 (ConstantObject 2);
               ControlBlock 1 (VariableObject "x");
               ControlBlock 1 (BinaryOpObject Add 0 1)]
  = release 2 [ControlBlock 1 (ConstantObject 2);
               ControlBlock 1 (VariableObject "x");
               ControlBlock 1 (BinaryOpObject Add 0 1)].
Proof.
  apply release_fuel_enough; [|lia].
  intros p blk cls l r Hp Hm.
  destruct p as [|[|[|p]]]; simpl in Hp; [| | |done];
    injection Hp as <-; simpl in Hm; [done | done |].
  injection Hm as _ <- <-. lia.
Defined.
